(** * Threads: a shallow embedding of [gusc::Threads::Thread]

    The development follows [include/Threads/Thread.hpp].  The class
    [Thread] owns two queues, two atomic flags and an optional
    [std::thread]; its member functions are embedded as functions on a
    [Process] record holding the object together with the pieces of the
    environment its code reads or writes: the monotonic clock, the log of
    calls made so far, the shared states of the promises handed out, and
    the program point of the spawned thread running [runLoop].

    Producer calls ([send], [sendDelayed], [sendAsync], [stop], ...) are
    atomic transitions: the test of the admission flag and the locked
    block that follows it are taken together.  [runLoop] is cut at the
    places where it does not hold [messageMutex]: the test of the loop
    condition, the reading of the clock, the locking, the two waits on
    [queueWait] and the call of the message popped.  A wait may return at
    any time, as [std::condition_variable] allows.  Callables are opaque:
    a call is logged with its time and yields a value, and does not itself
    use the [Thread]; a call made by the thread of the loop is an event
    whose caller is that thread.

    A schedule is a list of events; the properties below hold for every
    schedule.  Only [Thread] is embedded, not the derived [ThisThread]. *)

From stdpp Require Import base option list sorting gmap.
From Stdlib Require Import ZArith Lia.

Set Default Proof Using "Type".

(** ** Data *)

(** [std::thread::id]: the default constructed value names no thread. *)
Inductive thread_id : Type :=
| NoThread
| Tid (n : nat).

Global Instance thread_id_eq_dec : EqDecision thread_id.
Proof. solve_decision. Defined.

(** [std::this_thread::get_id()] for the thread numbered [caller]. *)
Definition this_thread_get_id (caller : nat) : thread_id := Tid caller.

(** [steady_clock::time_point] and [std::chrono::milliseconds] (signed),
    both counted in milliseconds. *)
Abbreviation time_point := Z.
Abbreviation milliseconds := Z.

(** A callable object [TCallable]: opaque, identified by [tag]; calling it
    yields [result] (ignored when [TReturn] is [void]). *)
Record callable : Type := Callable { tag : nat; result : Z }.

Global Instance callable_eq_dec : EqDecision callable.
Proof. solve_decision. Defined.

(** The two classes derived from [Message]. *)
Inductive Message : Type :=
| CallableMessage (callableObject : callable)
| CallableMessageWithPromise (callableObject : callable) (waitablePromise : nat).

Global Instance Message_eq_dec : EqDecision Message.
Proof. solve_decision. Defined.

Definition callableObject (m : Message) : callable :=
  match m with
  | CallableMessage c => c
  | CallableMessageWithPromise c _ => c
  end.

(** A [std::thread] object: the identity the system gave the thread and
    whether it is still joinable. *)
Record std_thread : Type := StdThread { native_id : nat; joinable : bool }.

Definition get_id (t : std_thread) : thread_id :=
  if joinable t then Tid (native_id t) else NoThread.

(** The data members of [Thread]. *)
Record Thread : Type := mkThread {
  missCounter : nat;
  isRunning : bool;
  isAcceptingMessages : bool;
  messageQueue : list Message;
  delayedQueue : list (time_point * Message);
  thread : option std_thread
}.

(** The conditions thrown as [std::runtime_error], named after their
    messages: "Thread already started", "Thread has not been started" and
    "Can not place a blocking message if the thread is not started",
    "Thread is not excepting any messages, ...". *)
Inductive error : Type :=
| AlreadyStarted
| NotStarted
| NotAccepting.

Global Instance error_eq_dec : EqDecision error.
Proof. solve_decision. Defined.

(** Program points of the thread executing [runLoop]. *)
Inductive pc : Type :=
| NotSpawned
| LoopHead                                           (* while (getIsRunning()) *)
| ReadClock                                          (* timeNow = steady_clock::now() *)
| Lock (timeNow : time_point)                        (* unique_lock lock(messageMutex) *)
| Wait (timeNow : time_point)                        (* inside queueWait.wait(lock) *)
| WaitUntil (timeNow : time_point) (until : time_point) (* inside queueWait.wait_until *)
| Call (next : option Message)                       (* lock released; if (next) ... *)
| RunLeftovers                                       (* entering runLeftovers() *)
| Exited.

Global Instance pc_eq_dec : EqDecision pc.
Proof. solve_decision. Defined.

(** One entry of the log: which message object had [call()] invoked, when,
    and whether [sendAsync] did it in place rather than the loop. *)
Record call_record : Type := CallRecord {
  called : Message;
  at_time : time_point;
  in_place : bool
}.

Record Process : Type := mkProcess {
  obj : Thread;
  now : time_point;            (* steady_clock::now() *)
  calls : list call_record;
  promises : gmap nat Z;       (* shared states that hold a value *)
  nextPromise : nat;           (* next std::promise to be constructed *)
  worker : pc;
  spawned : nat;               (* std::thread objects constructed so far *)
  aborted : bool               (* std::terminate was called *)
}.

(** What a member function does: return, throw, or bring the process down. *)
Inductive outcome (A : Type) : Type :=
| Returned (a : A) (p : Process)
| Thrown (e : error) (p : Process)
| Terminated.
Arguments Returned {A} a p.
Arguments Thrown {A} e p.
Arguments Terminated {A}.

(** ** Field updates *)

Definition setIsRunning (newIsRunning : bool) (t : Thread) : Thread :=
  mkThread (missCounter t) newIsRunning (isAcceptingMessages t)
           (messageQueue t) (delayedQueue t) (thread t).

Definition setIsAcceptingMessages (newIsAcceptingMessages : bool) (t : Thread) : Thread :=
  mkThread (missCounter t) (isRunning t) newIsAcceptingMessages
           (messageQueue t) (delayedQueue t) (thread t).

Definition set_messageQueue (q : list Message) (t : Thread) : Thread :=
  mkThread (missCounter t) (isRunning t) (isAcceptingMessages t)
           q (delayedQueue t) (thread t).

Definition set_delayedQueue (dq : list (time_point * Message)) (t : Thread) : Thread :=
  mkThread (missCounter t) (isRunning t) (isAcceptingMessages t)
           (messageQueue t) dq (thread t).

Definition set_thread (h : option std_thread) (t : Thread) : Thread :=
  mkThread (missCounter t) (isRunning t) (isAcceptingMessages t)
           (messageQueue t) (delayedQueue t) h.

Definition set_missCounter (n : nat) (t : Thread) : Thread :=
  mkThread n (isRunning t) (isAcceptingMessages t)
           (messageQueue t) (delayedQueue t) (thread t).

Definition set_obj (t : Thread) (p : Process) : Process :=
  mkProcess t (now p) (calls p) (promises p) (nextPromise p) (worker p)
            (spawned p) (aborted p).

Definition set_worker (w : pc) (p : Process) : Process :=
  mkProcess (obj p) (now p) (calls p) (promises p) (nextPromise p) w
            (spawned p) (aborted p).

Definition set_now (t : time_point) (p : Process) : Process :=
  mkProcess (obj p) t (calls p) (promises p) (nextPromise p) (worker p)
            (spawned p) (aborted p).

Definition set_aborted (p : Process) : Process :=
  mkProcess (obj p) (now p) (calls p) (promises p) (nextPromise p) (worker p)
            (spawned p) true.

(** ** Messages *)

(** [waitablePromise.set_value(callableObject())] on the shared states. *)
Definition set_value (m : Message) (shared : gmap nat Z) : gmap nat Z :=
  match m with
  | CallableMessage _ => shared
  | CallableMessageWithPromise c pr => <[pr := result c]> shared
  end.

(** [Message::call()]: the callable runs; a message with a promise then
    stores the value in the shared state. *)
Definition call (inPlace : bool) (m : Message) (p : Process) : Process :=
  mkProcess (obj p) (now p)
            (calls p ++ [CallRecord m (now p) inPlace])
            (set_value m (promises p))
            (nextPromise p) (worker p) (spawned p) (aborted p).

(** [std::future::get()]: [None] while the shared state is empty, that is
    while the caller stays blocked. *)
Definition future_get (fut : nat) (p : Process) : option Z := promises p !! fut.

(** ** The delayed queue, a [std::map] keyed by deadline *)

(** [std::map::emplace]: keys are unique; nothing is inserted when the key
    is already present. *)
Fixpoint map_emplace (k : time_point) (m : Message)
         (l : list (time_point * Message)) : list (time_point * Message) :=
  match l with
  | [] => [(k, m)]
  | (k', m') :: r =>
      if (k <? k')%Z then (k, m) :: l
      else if (k =? k')%Z then l
      else (k', m') :: map_emplace k m r
  end.

(** [std::map::lower_bound]: the first key not less than [t]. *)
Fixpoint lower_bound (t : time_point) (l : list (time_point * Message))
  : option time_point :=
  match l with
  | [] => None
  | (k, _) :: r => if (t <=? k)%Z then Some k else lower_bound t r
  end.

(** The [for] loop of [runLoop]: entries are moved from the front of the
    delayed queue to the back of the message queue while their key is
    before [timeNow]; the third component is [hasNew]. *)
Fixpoint promote (timeNow : time_point) (dq : list (time_point * Message))
         (mq : list Message) : list (time_point * Message) * list Message * bool :=
  match dq with
  | [] => (dq, mq, false)
  | (k, m) :: r =>
      if (k <? timeNow)%Z
      then let '(dq', mq', _) := promote timeNow r (mq ++ [m]) in (dq', mq', true)
      else (dq, mq, false)
  end.

(** ** Member functions *)

Definition getIsRunning (t : Thread) : bool := isRunning t.
Definition getIsAcceptingMessages (t : Thread) : bool := isAcceptingMessages t.

Definition getId (t : Thread) (caller : nat) : thread_id :=
  match thread t with
  | Some h => get_id h
  | None => this_thread_get_id caller
  end.

Definition getIsSameThread (t : Thread) (caller : nat) : bool :=
  bool_decide (getId t caller = this_thread_get_id caller).

(** [Thread() = default], run by thread [constructor], which leaves no
    trace in the object. *)
Definition Thread_ctor (constructor : nat) : Thread :=
  mkThread 0 false true [] [] None.

Definition start (newTid : nat) (p : Process) : outcome unit :=
  if negb (getIsRunning (obj p)) then
    let t := setIsRunning true (obj p) in
    (* the new std::thread is built, then assigned over the old handle,
       whose destructor terminates the process if it is joinable *)
    if match thread t with Some old => joinable old | None => false end
    then Terminated
    else Returned tt
           (mkProcess (set_thread (Some (StdThread newTid true)) t)
                      (now p) (calls p) (promises p) (nextPromise p)
                      LoopHead (S (spawned p)) (aborted p))
  else Thrown AlreadyStarted p.

Definition stop (p : Process) : outcome unit :=
  match thread (obj p) with
  | Some _ =>
      Returned tt (set_obj (setIsRunning false
                             (setIsAcceptingMessages false (obj p))) p)
  | None => Thrown NotStarted p
  end.

(** [join()]: [None] while the caller is blocked in [thread->join()]. *)
Definition join (p : Process) : option Process :=
  match thread (obj p) with
  | Some h =>
      if joinable h then
        if bool_decide (worker p = Exited)
        then Some (set_obj (set_thread (Some (StdThread (native_id h) false))
                                       (obj p)) p)
        else None
      else Some p
  | None => Some p
  end.

(** The destructor up to its [join()]. *)
Definition Thread_dtor_signal (p : Process) : Process :=
  set_obj (setIsRunning false (setIsAcceptingMessages false (obj p))) p.

Definition send (newMessage : callable) (p : Process) : outcome unit :=
  if getIsAcceptingMessages (obj p) then
    Returned tt
      (set_obj (set_messageQueue
                  (messageQueue (obj p) ++ [CallableMessage newMessage])
                  (obj p)) p)
  else Thrown NotAccepting p.

Definition sendDelayed (newMessage : callable) (timeout : milliseconds)
           (p : Process) : outcome unit :=
  if getIsAcceptingMessages (obj p) then
    let time := (now p + timeout)%Z in
    Returned tt
      (set_obj (set_delayedQueue
                  (map_emplace time (CallableMessage newMessage)
                               (delayedQueue (obj p)))
                  (obj p)) p)
  else Thrown NotAccepting p.

(** The [std::promise] constructed by [sendAsync]. *)
Definition new_promise (p : Process) : nat * Process :=
  (nextPromise p,
   mkProcess (obj p) (now p) (calls p) (promises p) (S (nextPromise p))
             (worker p) (spawned p) (aborted p)).

(** [sendAsync] returns the future, named by its shared state. *)
Definition sendAsync (caller : nat) (newMessage : callable) (p : Process)
  : outcome nat :=
  if getIsAcceptingMessages (obj p) then
    let '(promise, p1) := new_promise p in
    let message := CallableMessageWithPromise newMessage promise in
    if getIsSameThread (obj p1) caller then
      Returned promise (call true message p1)
    else
      Returned promise
        (set_obj (set_messageQueue (messageQueue (obj p1) ++ [message])
                                   (obj p1)) p1)
  else Thrown NotAccepting p.

(** [sendSync] up to [future.get()]; the caller then reads the value with
    [future_get]. *)
Definition sendSync (caller : nat) (newMessage : callable) (p : Process)
  : outcome nat :=
  if negb (getIsRunning (obj p)) then Thrown NotStarted p
  else sendAsync caller newMessage p.

Definition sendWait (caller : nat) (newMessage : callable) (p : Process)
  : outcome nat :=
  sendSync caller newMessage p.

(** ** The run loop *)

(** Lines 231-236: take the front message, then leave the locked block. *)
Definition takeNext (p : Process) : Process :=
  match messageQueue (obj p) with
  | m :: q => set_worker (Call (Some m)) (set_obj (set_messageQueue q (obj p)) p)
  | [] => set_worker (Call None) p
  end.

(** Lines 204-236, entered with the lock held. *)
Definition afterWait (timeNow : time_point) (p : Process) : Process :=
  match delayedQueue (obj p) with
  | [] => takeNext p
  | _ :: _ =>
      let '(dq, mq, hasNew) :=
        promote timeNow (delayedQueue (obj p)) (messageQueue (obj p)) in
      let p1 := set_obj (set_messageQueue mq (set_delayedQueue dq (obj p))) p in
      if hasNew then takeNext p1
      else match lower_bound timeNow dq with
           | Some nextTime => set_worker (WaitUntil timeNow nextTime) p1
           | None => takeNext p1
           end
  end.

(** [runLeftovers()]: every message of the queue is called, front first. *)
Fixpoint runLeftovers_loop (q : list Message) (p : Process) : Process :=
  match q with
  | [] => p
  | m :: r => runLeftovers_loop r (call false m p)
  end.

Definition runLeftovers (p : Process) : Process :=
  let p1 := runLeftovers_loop (messageQueue (obj p)) p in
  set_obj (set_messageQueue [] (obj p1)) p1.

(** One step of the thread running [runLoop].  At [Wait] and [WaitUntil]
    the step is the return from the wait: by notification, by timeout or
    spuriously. *)
Definition worker_step (p : Process) : Process :=
  match worker p with
  | NotSpawned => p
  | LoopHead =>
      if getIsRunning (obj p) then set_worker ReadClock p
      else set_worker RunLeftovers p
  | ReadClock => set_worker (Lock (now p)) p
  | Lock timeNow =>
      if bool_decide (messageQueue (obj p) = []) &&
         bool_decide (delayedQueue (obj p) = [])
      then set_worker (Wait timeNow) p
      else afterWait timeNow p
  | Wait timeNow => afterWait timeNow p
  | WaitUntil _ _ => takeNext p
  | Call (Some m) =>
      set_worker LoopHead (call false m (set_obj (set_missCounter 0 (obj p)) p))
  | Call None => set_worker LoopHead p
  | RunLeftovers => set_worker Exited (runLeftovers p)
  | Exited => p
  end.

(** ** Schedules *)

Inductive event : Type :=
| Tick (dt : nat)
| EStart (newTid : nat)
| EStop
| EJoin
| EDestroy
| ESend (c : callable)
| ESendDelayed (c : callable) (timeout : milliseconds)
| ESendAsync (caller : nat) (c : callable)
| ESendSync (caller : nat) (c : callable)
| ESendWait (caller : nat) (c : callable)
| EWorker.

Definition settle {A : Type} (p : Process) (o : outcome A) : Process :=
  match o with
  | Returned _ p' => p'
  | Thrown _ p' => p'
  | Terminated => set_aborted p
  end.

Definition step (e : event) (p : Process) : Process :=
  if aborted p then p else
  match e with
  | Tick dt => set_now (now p + Z.of_nat dt)%Z p
  | EStart newTid => settle p (start newTid p)
  | EStop => settle p (stop p)
  | EJoin => default p (join p)
  | EDestroy => Thread_dtor_signal p
  | ESend c => settle p (send c p)
  | ESendDelayed c d => settle p (sendDelayed c d p)
  | ESendAsync caller c => settle p (sendAsync caller c p)
  | ESendSync caller c => settle p (sendSync caller c p)
  | ESendWait caller c => settle p (sendWait caller c p)
  | EWorker => worker_step p
  end.

Definition run (evs : list event) (p : Process) : Process :=
  foldl (fun q e => step e q) p evs.

(** The process right after thread [constructor] built the object. *)
Definition boot (constructor : nat) : Process :=
  mkProcess (Thread_ctor constructor) 0%Z [] ∅ 0 NotSpawned 0 false.

Definition worker_run (k : nat) (p : Process) : Process :=
  run (replicate k EWorker) p.

(** ** Views of a process used in the statements *)

Definition msg_tag (m : Message) : nat := tag (callableObject m).

(** Messages the loop has called, in order of call. *)
Definition queue_calls (p : Process) : list Message :=
  called <$> filter (fun r => in_place r = false) (calls p).

(** Messages taken or waiting in the message queue, in order. *)
Definition pending (p : Process) : list Message :=
  match worker p with
  | Call (Some m) => [m]
  | _ => []
  end ++ messageQueue (obj p).

(** Where immediate messages live, oldest first. *)
Definition front (p : Process) : list Message := queue_calls p ++ pending p.

(** All messages handed to the queues, in the order in which the loop
    would call them if nothing more were sent. *)
Definition pipeline (p : Process) : list Message :=
  front p ++ (snd <$> delayedQueue (obj p)).

Definition promise_of (m : Message) : option nat :=
  match m with
  | CallableMessage _ => None
  | CallableMessageWithPromise _ pr => Some pr
  end.

Definition in_loop (w : pc) : Prop :=
  match w with
  | LoopHead | ReadClock | Lock _ | Wait _ | WaitUntil _ _ | Call _ => True
  | NotSpawned | RunLeftovers | Exited => False
  end.

Definition sorted_keys (dq : list (time_point * Message)) : Prop :=
  StronglySorted Z.lt (fst <$> dq).

(** What holds of every process a schedule can reach from [boot]. *)
Record wf (p : Process) : Prop := mk_wf {
  wf_sorted : sorted_keys (delayedQueue (obj p));
  wf_clock :
    match worker p with
    | Lock t | Wait t | WaitUntil t _ => (t <= now p)%Z
    | _ => True
    end;
  wf_handle :
    match thread (obj p) with
    | None => worker p = NotSpawned /\ isRunning (obj p) = false
    | Some h => worker p <> NotSpawned /\ (joinable h = false -> worker p = Exited)
    end;
  wf_flags :
    isRunning (obj p) = false -> worker p <> NotSpawned ->
    isAcceptingMessages (obj p) = false;
  wf_running : isRunning (obj p) = true -> in_loop (worker p);
  wf_exited : worker p = Exited -> messageQueue (obj p) = [];
  wf_fresh :
    forall m pr, m ∈ pipeline p -> promise_of m = Some pr -> pr < nextPromise p;
  wf_promises :
    forall pr, is_Some (promises p !! pr) -> pr < nextPromise p
}.

Definition reachable (p : Process) : Prop :=
  exists constructor evs, p = run evs (boot constructor).


(** The shape every step of the loop gives the process: a new program
    point and new queues, the rest as it was. *)
Definition upd (w : pc) (mq : list Message) (dq : list (time_point * Message))
           (p : Process) : Process :=
  set_worker w (set_obj (set_messageQueue mq (set_delayedQueue dq (obj p))) p).

Definition taken (next : option Message) : list Message :=
  match next with
  | Some m => [m]
  | None => []
  end.

(** The steps of the loop, by program point.  [ls_locked] is the block run
    with [messageMutex] held: [moved] is what the [for] loop promoted. *)
Inductive loop_step (p : Process) : Process -> Prop :=
| ls_idle :
    worker p = NotSpawned \/ worker p = Exited ->
    loop_step p p
| ls_head :
    worker p = LoopHead ->
    loop_step p (if isRunning (obj p) then set_worker ReadClock p
                 else set_worker RunLeftovers p)
| ls_clock :
    worker p = ReadClock ->
    loop_step p (set_worker (Lock (now p)) p)
| ls_wait t :
    worker p = Lock t ->
    messageQueue (obj p) = [] -> delayedQueue (obj p) = [] ->
    loop_step p (set_worker (Wait t) p)
| ls_locked t moved rest w mq :
    (worker p = Lock t \/ worker p = Wait t \/
     exists d, worker p = WaitUntil t d) ->
    delayedQueue (obj p) = moved ++ rest ->
    Forall (fun e => (e.1 < t)%Z) moved ->
    ((exists next, w = Call next /\
                   taken next ++ mq = messageQueue (obj p) ++ (snd <$> moved) /\
                   (next = None -> mq = [])) \/
     (exists nextTime, w = WaitUntil t nextTime /\
                       mq = messageQueue (obj p) /\ moved = [] /\
                       (worker p = Lock t \/ worker p = Wait t))) ->
    loop_step p (upd w mq rest p)
| ls_skip :
    worker p = Call None ->
    loop_step p (set_worker LoopHead p)
| ls_call m :
    worker p = Call (Some m) ->
    loop_step p (set_worker LoopHead
                   (call false m (set_obj (set_missCounter 0 (obj p)) p)))
| ls_leftovers :
    worker p = RunLeftovers ->
    loop_step p (set_worker Exited (runLeftovers p)).

(** Events that close admission or clear the running flag. *)
Definition is_stop (e : event) : bool :=
  match e with
  | EStop | EDestroy => true
  | _ => false
  end.

Definition no_stop (evs : list event) : bool := forallb (fun e => negb (is_stop e)) evs.

(** The events that hand over a callable tagged [tg]. *)
Definition submits (tg : nat) (e : event) : bool :=
  match e with
  | ESend c | ESendDelayed c _ | ESendAsync _ c | ESendSync _ c
  | ESendWait _ c => bool_decide (tag c = tg)
  | _ => false
  end.

(** What one event does to the views, by kind. *)
Inductive step_view (e : event) (p q : Process) : Prop :=
| sv_same :
    calls q = calls p -> front q = front p ->
    delayedQueue (obj q) = delayedQueue (obj p) ->
    promises q = promises p -> (now p <= now q)%Z ->
    nextPromise q = nextPromise p ->
    step_view e p q
| sv_enqueue m :
    submits (msg_tag m) e = true ->
    (forall pr, promise_of m = Some pr -> pr = nextPromise p) ->
    calls q = calls p -> front q = front p ++ [m] ->
    delayedQueue (obj q) = delayedQueue (obj p) ->
    promises q = promises p -> now q = now p ->
    nextPromise p <= nextPromise q ->
    step_view e p q
| sv_delay c d :
    e = ESendDelayed c d ->
    calls q = calls p -> front q = front p ->
    delayedQueue (obj q) =
      map_emplace (now p + d) (CallableMessage c) (delayedQueue (obj p)) ->
    promises q = promises p -> now q = now p ->
    nextPromise q = nextPromise p ->
    step_view e p q
| sv_in_place c :
    submits (tag c) e = true ->
    calls q = calls p ++
              [CallRecord (CallableMessageWithPromise c (nextPromise p))
                          (now p) true] ->
    front q = front p ->
    delayedQueue (obj q) = delayedQueue (obj p) ->
    promises q = <[nextPromise p := result c]> (promises p) ->
    now q = now p ->
    nextPromise q = S (nextPromise p) ->
    step_view e p q
| sv_loop :
    e = EWorker -> loop_step p q ->
    step_view e p q.

(** Steps the loop still needs, at most, to leave once the running flag is
    clear. *)
Definition exit_dist (w : pc) : nat :=
  match w with
  | NotSpawned | Exited => 0
  | RunLeftovers => 1
  | LoopHead => 2
  | Call _ => 3
  | WaitUntil _ _ => 4
  | Wait _ => 5
  | Lock _ => 6
  | ReadClock => 7
  end.

(** Steps the loop needs, at most, to call the oldest pending message
    while the running flag is set. *)
Definition call_dist (w : pc) : nat :=
  match w with
  | Call (Some _) => 1
  | WaitUntil _ _ => 2
  | Lock _ | Wait _ => 3
  | ReadClock => 4
  | LoopHead => 5
  | Call None => 6
  | NotSpawned | RunLeftovers | Exited => 0
  end.

(** Messages handed over and not called yet. *)
Definition uncalled (p : Process) : list Message :=
  pending p ++ (snd <$> delayedQueue (obj p)).

(** The future [fut] belongs to callable [c]: the only message not called
    yet that may fulfil it wraps [c], and it holds nothing or [c]'s value. *)
Definition promise_inv (fut : nat) (c : callable) (p : Process) : Prop :=
  fut < nextPromise p /\
  (forall m, m ∈ uncalled p -> promise_of m = Some fut -> callableObject m = c) /\
  (promises p !! fut = None \/ promises p !! fut = Some (result c)).





(** ** Comparison operators *)

(** [operator==(const Thread&)], evaluated by thread [caller]. *)
Definition operator_eq (t other : Thread) (caller : nat) : bool :=
  bool_decide (getId t caller = getId other caller).

Definition operator_ne (t other : Thread) (caller : nat) : bool :=
  negb (operator_eq t other caller).

(** [operator==(const std::thread::id&)]. *)
Definition operator_eq_id (t : Thread) (other : thread_id) (caller : nat) : bool :=
  bool_decide (getId t caller = other).

Definition operator_ne_id (t : Thread) (other : thread_id) (caller : nat) : bool :=
  negb (operator_eq_id t other caller).

(** ** [ThisThread] *)

(** The constructor of [ThisThread]: the base object, then
    [setIsRunning(true)]. *)
Definition ThisThread_ctor (constructor : nat) : Thread :=
  setIsRunning true (Thread_ctor constructor).

(** [ThisThread::start()] runs [runLoop()] on the calling thread: the loop
    is entered, and the call returns when the loop has reached [Exited].
    [None] when a loop is already under way, which a single program point
    cannot describe. *)
Definition ThisThread_start (p : Process) : option Process :=
  match worker p with
  | NotSpawned | Exited => Some (set_worker LoopHead p)
  | _ => None
  end.

(** [ThisThread::stop()]: the flags only, and no test of [thread]. *)
Definition ThisThread_stop (p : Process) : outcome unit :=
  Returned tt (set_obj (setIsRunning false
                         (setIsAcceptingMessages false (obj p))) p).

(** The process right after thread [constructor] built a [ThisThread]. *)
Definition this_boot (constructor : nat) : Process :=
  mkProcess (ThisThread_ctor constructor) 0%Z [] ∅ 0 NotSpawned 0 false.

(** Events that call [Thread::start]. *)
Definition is_start (e : event) : bool :=
  match e with
  | EStart _ => true
  | _ => false
  end.

Definition no_start (evs : list event) : bool :=
  forallb (fun e => negb (is_start e)) evs.

(** Entries of the delayed queue whose deadline is before [t], and the
    others. *)
Definition due (t : Z) (dq : list (Z * Message)) : list (Z * Message) :=
  filter (fun e => (e.1 < t)%Z) dq.

Definition not_due (t : Z) (dq : list (Z * Message)) : list (Z * Message) :=
  filter (fun e => ~ (e.1 < t)%Z) dq.


(** The promises carried by the messages not called yet are all different
    and none of them holds a value. *)
Definition unfulfilled (p : Process) : Prop :=
  NoDup (omap promise_of (uncalled p)) /\
  forall m pr, m ∈ uncalled p -> promise_of m = Some pr ->
               promises p !! pr = None.
(** ** Lists: the delayed queue *)

Lemma map_emplace_elem k m l x :
  x ∈ map_emplace k m l -> x = (k, m) \/ x ∈ l.
Proof.
  induction l as [|[k' m'] r IH]; simpl.
  - intros ->%list_elem_of_singleton. by left.
  - destruct (k <? k')%Z.
    + intros [->|H]%elem_of_cons; [by left|by right].
    + destruct (k =? k')%Z; [by right|].
      intros [->|H]%elem_of_cons; [right; left|].
      destruct (IH H) as [->|?]; [by left|right; by right].
Qed.

Lemma map_emplace_sorted k m l :
  sorted_keys l -> sorted_keys (map_emplace k m l).
Proof.
  unfold sorted_keys. induction l as [|[k' m'] r IH]; simpl; intros Hs.
  - repeat constructor.
  - apply StronglySorted_inv in Hs as [Hr Hall].
    destruct (k <? k')%Z eqn:Hlt.
    + apply Z.ltb_lt in Hlt. simpl. constructor.
      * constructor; assumption.
      * constructor; [assumption|].
        eapply Forall_impl; [exact Hall|]. simpl. intros; lia.
    + destruct (k =? k')%Z eqn:Heq.
      * constructor; assumption.
      * simpl. constructor; [by apply IH|].
        apply Z.ltb_ge in Hlt. apply Z.eqb_neq in Heq.
        apply Forall_forall. intros x Hx.
        apply list_elem_of_fmap in Hx as [[k0 m0] [-> Hin]].
        apply map_emplace_elem in Hin as [[= -> ->]|Hin]; simpl; [lia|].
        rewrite Forall_forall in Hall. apply Hall.
        apply list_elem_of_fmap. by exists (k0, m0).
Qed.

(** A key already in the map: [emplace] leaves the map as it is. *)
Lemma map_emplace_present k m l :
  sorted_keys l -> k ∈ (fst <$> l) -> map_emplace k m l = l.
Proof.
  unfold sorted_keys. induction l as [|[k' m'] r IH]; simpl; intros Hs Hin.
  - by apply elem_of_nil in Hin.
  - apply StronglySorted_inv in Hs as [Hr Hall].
    apply elem_of_cons in Hin as [->|Hin].
    + rewrite Z.ltb_irrefl, Z.eqb_refl. reflexivity.
    + rewrite Forall_forall in Hall. specialize (Hall _ Hin). simpl in Hall.
      destruct (k <? k')%Z eqn:Hlt; [apply Z.ltb_lt in Hlt; lia|].
      destruct (k =? k')%Z eqn:Heq; [reflexivity|].
      f_equal. by apply IH.
Qed.

(** The [for] loop moves a prefix of the delayed queue, every key of which
    is before [timeNow], to the back of the message queue. *)
Lemma promote_spec timeNow dq mq :
  exists moved,
    dq = moved ++ (promote timeNow dq mq).1.1 /\
    (promote timeNow dq mq).1.2 = mq ++ (snd <$> moved) /\
    Forall (fun e => (e.1 < timeNow)%Z) moved /\
    ((promote timeNow dq mq).2 = false -> moved = []).
Proof.
  revert mq. induction dq as [|[k m] r IH]; intros mq; simpl.
  - exists []. simpl. rewrite app_nil_r. auto.
  - destruct (k <? timeNow)%Z eqn:Hlt.
    + destruct (IH (mq ++ [m])) as (moved & H1 & H2 & H3 & H4).
      destruct (promote timeNow r (mq ++ [m])) as [[dq' mq'] b]. simpl in *.
      exists ((k, m) :: moved). simpl. split; [by f_equal|].
      split; [by rewrite H2, <- app_assoc|].
      split; [|discriminate].
      constructor; [simpl; by apply Z.ltb_lt|assumption].
    + exists []. simpl. rewrite app_nil_r. auto.
Qed.

(** ** The run loop, step by step *)

Ltac open_process p :=
  let t := fresh "t" in
  destruct p as [t ? ? ? ? ? ? ?]; destruct t as [? ? ? ? ? ?]; simpl in *.

Lemma takeNext_spec p :
  exists next mq,
    takeNext p = upd (Call next) mq (delayedQueue (obj p)) p /\
    taken next ++ mq = messageQueue (obj p) /\
    (next = None -> mq = []).
Proof.
  open_process p. unfold takeNext, upd; simpl.
  destruct messageQueue0 as [|m q].
  - exists None, []. by repeat split.
  - exists (Some m), q. by repeat split.
Qed.

Lemma afterWait_spec timeNow p :
  exists moved rest w mq,
    delayedQueue (obj p) = moved ++ rest /\
    Forall (fun e => (e.1 < timeNow)%Z) moved /\
    afterWait timeNow p = upd w mq rest p /\
    ((exists next, w = Call next /\
                   taken next ++ mq = messageQueue (obj p) ++ (snd <$> moved) /\
                   (next = None -> mq = [])) \/
     (exists nextTime, w = WaitUntil timeNow nextTime /\
                       mq = messageQueue (obj p) /\ moved = [])).
Proof.
  unfold afterWait.
  destruct (delayedQueue (obj p)) as [|e dq0] eqn:Hdq.
  - destruct (takeNext_spec p) as (next & mq & Heq & Hmq & Hnone).
    exists [], [], (Call next), mq. rewrite Heq, Hdq. simpl.
    repeat split; [constructor|]. left. exists next. by rewrite app_nil_r.
  - destruct (promote_spec timeNow (e :: dq0) (messageQueue (obj p)))
      as (moved & H1 & H2 & H3 & H4).
    destruct (promote timeNow (e :: dq0) (messageQueue (obj p)))
      as [[dq' mq'] hasNew]. simpl in H1, H2, H4.
    set (p1 := set_obj (set_messageQueue mq' (set_delayedQueue dq' (obj p))) p).
    assert (Htake : exists next mq,
               takeNext p1 = upd (Call next) mq dq' p /\ taken next ++ mq = mq' /\
               (next = None -> mq = [])).
    { destruct (takeNext_spec p1) as (next & mq & Heq & Hmq & Hnone).
      exists next, mq. split; [|by split]. rewrite Heq. reflexivity. }
    destruct hasNew.
    + destruct Htake as (next & mq & Heq & Hmq & Hnone).
      exists moved, dq', (Call next), mq. repeat split; try assumption.
      left. exists next. split; [reflexivity|]. by rewrite Hmq.
    + specialize (H4 eq_refl). subst moved. simpl in *.
      rewrite app_nil_r in H2. subst mq'.
      destruct (lower_bound timeNow dq') as [nextTime|].
      * exists [], dq', (WaitUntil timeNow nextTime), (messageQueue (obj p)).
        repeat split; [assumption|constructor|]. right. by exists nextTime.
      * destruct Htake as (next & mq & Heq & Hmq & Hnone).
        exists [], dq', (Call next), mq. repeat split; try assumption.
        left. exists next. split; [reflexivity|]. by rewrite Hmq, app_nil_r.
Qed.

Lemma filter_queue_app (l1 l2 : list call_record) :
  filter (fun r => in_place r = false) (l1 ++ l2) =
  filter (fun r => in_place r = false) l1 ++
  filter (fun r => in_place r = false) l2.
Proof. apply filter_app. Qed.

Lemma queue_calls_call b m p :
  queue_calls (call b m p) = queue_calls p ++ (if b then [] else [m]).
Proof.
  unfold queue_calls, call; simpl. rewrite filter_queue_app, fmap_app.
  f_equal. destruct b; reflexivity.
Qed.

Lemma runLeftovers_loop_spec q p :
  let p' := runLeftovers_loop q p in
  obj p' = obj p /\ now p' = now p /\ worker p' = worker p /\
  nextPromise p' = nextPromise p /\ spawned p' = spawned p /\
  aborted p' = aborted p /\
  calls p' = calls p ++ ((fun m => CallRecord m (now p) false) <$> q) /\
  queue_calls p' = queue_calls p ++ q /\
  promises p' = foldl (fun shared m => set_value m shared) (promises p) q.
Proof.
  revert p. induction q as [|m r IH]; intros p; simpl.
  - rewrite !app_nil_r. repeat split.
  - destruct (IH (call false m p))
      as (H1 & H2 & H3 & H4 & H5 & H6 & H7 & H8 & H9).
    simpl in *. rewrite H1, H2, H3, H4, H5, H6, H7, H8, H9.
    rewrite queue_calls_call, <- !app_assoc. repeat split.
Qed.

Lemma worker_step_loop_step p : loop_step p (worker_step p).
Proof.
  unfold worker_step.
  destruct (worker p) as [| | |t|t|t d|[m|]| |] eqn:Hw.
  - apply ls_idle. by left.
  - by apply ls_head.
  - by apply ls_clock.
  - destruct (bool_decide (messageQueue (obj p) = [])) eqn:H1;
      [destruct (bool_decide (delayedQueue (obj p) = [])) eqn:H2|]; simpl.
    + apply bool_decide_eq_true in H1, H2. by apply ls_wait.
    + destruct (afterWait_spec t p) as (moved & rest & w & mq & E1 & E2 & -> & E3).
      eapply ls_locked; eauto.
      destruct E3 as [E3|(d & -> & -> & ->)]; [by left|].
      right. exists d. auto.
    + destruct (afterWait_spec t p) as (moved & rest & w & mq & E1 & E2 & -> & E3).
      eapply ls_locked; eauto.
      destruct E3 as [E3|(d & -> & -> & ->)]; [by left|].
      right. exists d. auto.
  - destruct (afterWait_spec t p) as (moved & rest & w & mq & E1 & E2 & -> & E3).
    eapply ls_locked; eauto.
    destruct E3 as [E3|(d & -> & -> & ->)]; [by left|].
    right. exists d. auto.
  - destruct (takeNext_spec p) as (next & mq & -> & E & Hnone).
    apply (ls_locked p t [] (delayedQueue (obj p)) (Call next) mq); eauto.
    left. exists next. by rewrite app_nil_r.
  - by apply ls_call.
  - by apply ls_skip.
  - by apply ls_leftovers.
  - apply ls_idle. by right.
Qed.

(** What no step of the loop touches. *)
Lemma loop_step_frame p q :
  loop_step p q ->
  isRunning (obj q) = isRunning (obj p) /\
  isAcceptingMessages (obj q) = isAcceptingMessages (obj p) /\
  thread (obj q) = thread (obj p) /\
  now q = now p /\ nextPromise q = nextPromise p /\
  spawned q = spawned p /\ aborted q = aborted p.
Proof.
  destruct 1; simpl; try (repeat split; fail).
  - destruct (isRunning (obj p)) eqn:E; simpl; rewrite ?E; repeat split.
  - unfold runLeftovers.
    destruct (runLeftovers_loop_spec (messageQueue (obj p)) p)
      as (H1 & H2 & _ & H4 & H5 & H6 & _). simpl in *.
    rewrite H1, H2, H4, H5, H6. repeat split.
Qed.

(** Promotion feeds the back of the message queue, and only with entries
    whose deadline has passed. *)
Lemma loop_step_moves p q :
  wf p -> loop_step p q ->
  exists moved,
    delayedQueue (obj p) = moved ++ delayedQueue (obj q) /\
    front q = front p ++ (snd <$> moved) /\
    Forall (fun e => (e.1 < now p)%Z) moved.
Proof.
  intros Hwf Hs. pose proof (wf_clock p Hwf) as Hclk.
  destruct Hs as [H| H | H | t H H1 H2 | t moved rest w mq H H1 H2 H3
                 | H | m H | H].
  - exists []. simpl. by rewrite app_nil_r.
  - exists []. unfold front, pending.
    destruct (isRunning (obj p)); simpl; by rewrite H, !app_nil_r.
  - exists []. unfold front, pending. simpl. by rewrite H, !app_nil_r.
  - exists []. unfold front, pending. simpl. by rewrite H, !app_nil_r.
  - exists moved. simpl. split; [assumption|]. split.
    + unfold front, pending, queue_calls. simpl.
      assert (Hp : match worker p with Call (Some m) => [m] | _ => [] end = [])
        by (destruct H as [->|[->|[d ->]]]; reflexivity).
      rewrite Hp. simpl.
      destruct H3 as [(next & -> & H3 & _)|(d & -> & -> & -> & _)].
      * change (match next with Some m => [m] | None => [] end) with (taken next).
        rewrite H3. by rewrite <- !app_assoc.
      * simpl. by rewrite app_nil_r.
    + eapply Forall_impl; [exact H2|]. simpl. intros e He.
      destruct H as [Hw|[Hw|[d Hw]]]; rewrite Hw in Hclk; lia.
  - exists []. unfold front, pending. simpl. by rewrite H, !app_nil_r.
  - exists []. unfold front, pending. simpl. rewrite H. simpl.
    pose proof (queue_calls_call false m (set_obj (set_missCounter 0 (obj p)) p)) as Hq.
    unfold queue_calls in *. simpl in *. rewrite Hq.
    split; [reflexivity|]. split; [|constructor].
    by rewrite app_nil_r, <- !app_assoc.
  - exists []. unfold front, pending, runLeftovers. simpl. rewrite H.
    destruct (runLeftovers_loop_spec (messageQueue (obj p)) p)
      as (H1 & _ & _ & _ & _ & _ & _ & H8 & _).
    unfold queue_calls in *. simpl in *. rewrite H8, H1.
    split; [reflexivity|]. split; [|constructor]. by rewrite !app_nil_r.
Qed.

Lemma sorted_keys_app_r l1 l2 : sorted_keys (l1 ++ l2) -> sorted_keys l2.
Proof.
  unfold sorted_keys. induction l1 as [|x l1 IH]; simpl; [done|].
  intros [H _]%StronglySorted_inv. auto.
Qed.

Lemma wf_boot constructor : wf (boot constructor).
Proof.
  constructor; simpl; try done.
  - constructor.
  - intros m pr H. by apply elem_of_nil in H.
  - intros pr [v Hv]. by rewrite lookup_empty in Hv.
Qed.

Lemma set_value_lookup ms (shared : gmap nat Z) pr :
  foldl (fun sh m => set_value m sh) shared ms !! pr = shared !! pr \/
  exists m, m ∈ ms /\ promise_of m = Some pr /\
            foldl (fun sh m => set_value m sh) shared ms !! pr
            = Some (result (callableObject m)).
Proof.
  induction ms as [|m ms IH] using rev_ind; simpl; [by left|].
  rewrite foldl_app. simpl.
  destruct m as [c|c pr']; simpl.
  - destruct IH as [IH|(m & H1 & H2 & H3)]; [by left|].
    right. exists m. split; [|done]. apply elem_of_app. by left.
  - destruct (decide (pr' = pr)) as [->|Hne].
    + right. exists (CallableMessageWithPromise c pr).
      split; [apply elem_of_app; right; by left|].
      split; [done|]. by rewrite lookup_insert_eq.
    + rewrite lookup_insert_ne by done.
      destruct IH as [IH|(m & H1 & H2 & H3)]; [by left|].
      right. exists m. split; [|done]. apply elem_of_app. by left.
Qed.

(** What the loop calls in one step: messages it had taken or found in the
    message queue, front first, each stamped with the current time. *)
Lemma loop_step_calls p q :
  loop_step p q ->
  exists ms,
    ms `prefix_of` pending p /\
    calls q = calls p ++ ((fun m => CallRecord m (now p) false) <$> ms) /\
    promises q = foldl (fun sh m => set_value m sh) (promises p) ms.
Proof.
  destruct 1 as [H|H|H|t H H1 H2|t mv rest w mq H H1 H2 H3|H|m H|H];
    try (exists []; simpl; rewrite app_nil_r;
         split; [apply prefix_nil|done]).
  - exists []. simpl. rewrite app_nil_r. split; [apply prefix_nil|].
    by destruct (isRunning (obj p)).
  - exists [m]. unfold pending. rewrite H. simpl.
    split; [|done]. by exists (messageQueue (obj p)).
  - exists (messageQueue (obj p)). unfold pending, runLeftovers. rewrite H.
    destruct (runLeftovers_loop_spec (messageQueue (obj p)) p)
      as (_ & _ & _ & _ & _ & _ & H7 & _ & H9). simpl in *.
    by rewrite H7, H9.
Qed.


(** The loop never changes the order of the messages handed to it. *)
Lemma loop_step_pipeline p q : wf p -> loop_step p q -> pipeline q = pipeline p.
Proof.
  intros Hwf Hs.
  destruct (loop_step_moves p q Hwf Hs) as (moved & M1 & M2 & _).
  unfold pipeline. by rewrite M2, M1, fmap_app, <- app_assoc.
Qed.

Lemma loop_step_wf p q : wf p -> loop_step p q -> wf q.
Proof.
  intros Hwf Hs.
  destruct (loop_step_frame p q Hs) as (F1 & F2 & F3 & F4 & F5 & _).
  destruct (loop_step_moves p q Hwf Hs) as (moved & M1 & _ & _).
  pose proof (loop_step_pipeline p q Hwf Hs) as Hpipe.
  destruct Hwf as [W1 W2 W3 W4 W5 W6 W7 W8].
  constructor.
  - rewrite M1 in W1. by apply sorted_keys_app_r in W1.
  - rewrite F4. clear -Hs W2.
    destruct Hs as [H|H|H|t H H1 H2|t mv rest w mq H H1 H2 H3|H|m H|H]; simpl; try done.
    + by destruct (isRunning (obj p)).
    + by rewrite H in W2.
    + destruct H3 as [(next & -> & _)|(d & -> & _)]; [done|].
      destruct H as [H|[H|[d' H]]]; by rewrite H in W2.
  - rewrite F3, F1. clear -Hs W3 W5.
    destruct (thread (obj p)) as [h|]; destruct W3 as [W3 W3'].
    + split.
      * destruct Hs as [H|H|H|t H H1 H2|t mv rest w mq H H1 H2 H3|H|m H|H]; simpl; try done.
        -- by destruct (isRunning (obj p)).
        -- destruct H3 as [(next & -> & _)|(d & -> & _)]; done.
      * intros Hj. specialize (W3' Hj).
        destruct Hs as [H|H|H|t H H1 H2|t mv rest w mq H H1 H2 H3|H|m H|H]; simpl; try done; try congruence.
        destruct H as [H|[H|[d' H]]]; congruence.
    + split; [|done].
      destruct Hs as [H|H|H|t H H1 H2|t mv rest w mq H H1 H2 H3|H|m H|H]; simpl; try done; try congruence.
      destruct H as [H|[H|[d' H]]]; congruence.
  - rewrite F1, F2. intros R1 R2. apply W4; [done|].
    clear -Hs R2. intros Hn.
    destruct Hs as [H|H|H|t H H1 H2|t mv rest w mq H H1 H2 H3|H|m H|H]; simpl in *; try done; try congruence.
    destruct H as [H|[H|[d' H]]]; congruence.
  - rewrite F1. intros R1. specialize (W5 R1). clear -Hs W5 R1.
    destruct Hs as [H|H|H|t H H1 H2|t mv rest w mq H H1 H2 H3|H|m H|H]; simpl in *; try done.
    + by rewrite R1.
    + destruct H3 as [(next & -> & _)|(d & -> & _)]; done.
    + by rewrite H in W5.
  - clear -Hs W6.
    destruct Hs as [H|H|H|t H H1 H2|t mv rest w mq H H1 H2 H3|H|m H|H]; simpl; try done.
    + by destruct (isRunning (obj p)).
    + destruct H3 as [(next & -> & _)|(d & -> & _)]; done.
  - rewrite Hpipe, F5. exact W7.
  - intros pr Hsome. rewrite F5.
    destruct (loop_step_calls p q Hs) as (ms & [k Hpre] & _ & Hpr).
    rewrite Hpr in Hsome.
    destruct (set_value_lookup ms (promises p) pr) as [E|(m & Hin & Hp & _)].
    + rewrite E in Hsome. by apply W8.
    + apply (W7 m); [|done]. unfold pipeline, front. rewrite Hpre.
      rewrite !elem_of_app. auto.
Qed.

Lemma worker_step_wf p : wf p -> wf (worker_step p).
Proof. intros H. eapply loop_step_wf; [exact H|apply worker_step_loop_step]. Qed.

(** ** Producers keep the invariant *)

Lemma wf_not_exited_when_accepting p :
  wf p -> isAcceptingMessages (obj p) = true ->
  worker p <> Exited /\ worker p <> RunLeftovers.
Proof.
  intros [_ _ _ W4 W5 _ _ _] Hacc.
  destruct (isRunning (obj p)) eqn:Hrun.
  - specialize (W5 eq_refl). split; intros Hw; by rewrite Hw in W5.
  - split; intros Hw; (rewrite W4 in Hacc; [done|done|by rewrite Hw]).
Qed.

Lemma pipeline_enqueue m p :
  pipeline (set_obj (set_messageQueue (messageQueue (obj p) ++ [m]) (obj p)) p)
  = front p ++ [m] ++ (snd <$> delayedQueue (obj p)).
Proof. unfold pipeline, front, pending. simpl. by rewrite <- !app_assoc. Qed.

Lemma enqueue_wf m p :
  wf p -> isAcceptingMessages (obj p) = true ->
  (forall pr, promise_of m = Some pr -> pr < nextPromise p) ->
  wf (set_obj (set_messageQueue (messageQueue (obj p) ++ [m]) (obj p)) p).
Proof.
  intros Hwf Hacc Hm.
  destruct (wf_not_exited_when_accepting p Hwf Hacc) as [Hne _].
  destruct Hwf as [W1 W2 W3 W4 W5 W6 W7 W8].
  constructor; simpl; try done.
  intros m' pr. rewrite pipeline_enqueue. simpl.
  intros Hin Hpr.
  apply elem_of_app in Hin as [Hin|Hin].
  - apply (W7 m'); [|done]. unfold pipeline. apply elem_of_app. by left.
  - apply elem_of_cons in Hin as [->|Hin]; [by apply Hm|].
    apply (W7 m'); [|done]. unfold pipeline. apply elem_of_app. by right.
Qed.

Lemma send_wf c p : wf p -> wf (settle p (send c p)).
Proof.
  intros Hwf. unfold send, getIsAcceptingMessages.
  destruct (isAcceptingMessages (obj p)) eqn:Hacc; simpl; [|done].
  by apply enqueue_wf.
Qed.

Lemma sendDelayed_wf c d p : wf p -> wf (settle p (sendDelayed c d p)).
Proof.
  intros Hwf. unfold sendDelayed, getIsAcceptingMessages.
  destruct (isAcceptingMessages (obj p)) eqn:Hacc; simpl; [|done].
  destruct Hwf as [W1 W2 W3 W4 W5 W6 W7 W8].
  constructor; simpl; try done.
  - by apply map_emplace_sorted.
  - intros m pr Hin Hpr. unfold pipeline, front, pending in Hin. simpl in Hin.
    apply elem_of_app in Hin as [Hin|Hin].
    + apply (W7 m); [|done]. unfold pipeline. apply elem_of_app. by left.
    + apply list_elem_of_fmap in Hin as [[k m0] [-> Hin]].
      apply map_emplace_elem in Hin as [[= -> ->]|Hin]; [done|].
      apply (W7 m0); [|done]. unfold pipeline. apply elem_of_app. right.
      apply list_elem_of_fmap. by exists (k, m0).
Qed.

Lemma new_promise_wf p : wf p -> wf (new_promise p).2.
Proof.
  intros [W1 W2 W3 W4 W5 W6 W7 W8]. constructor; simpl; try done.
  - intros m pr Hin Hpr. specialize (W7 m pr Hin Hpr). lia.
  - intros pr Hpr. specialize (W8 pr Hpr). lia.
Qed.

Lemma call_in_place_wf m p :
  wf p ->
  (forall pr, promise_of m = Some pr -> pr < nextPromise p) ->
  wf (call true m p).
Proof.
  intros [W1 W2 W3 W4 W5 W6 W7 W8] Hm. constructor; simpl; try done.
  - intros m' pr Hin. apply W7. revert Hin.
    unfold pipeline, front. rewrite queue_calls_call. simpl.
    by rewrite app_nil_r.
  - intros pr. destruct m as [c|c pr']; simpl; [apply W8|].
    destruct (decide (pr' = pr)) as [->|Hne].
    + intros _. by apply Hm.
    + rewrite lookup_insert_ne by done. apply W8.
Qed.

Lemma sendAsync_wf caller c p : wf p -> wf (settle p (sendAsync caller c p)).
Proof.
  intros Hwf. unfold sendAsync, getIsAcceptingMessages.
  destruct (isAcceptingMessages (obj p)) eqn:Hacc; simpl; [|done].
  destruct (getIsSameThread (obj p) caller); simpl.
  - apply call_in_place_wf; [by apply (new_promise_wf p)|].
    simpl. intros pr [= <-]. lia.
  - apply (enqueue_wf _ (new_promise p).2);
      [by apply new_promise_wf|done|].
    simpl. intros pr [= <-]. lia.
Qed.

Lemma sendSync_wf caller c p : wf p -> wf (settle p (sendSync caller c p)).
Proof.
  intros Hwf. unfold sendSync.
  destruct (negb (getIsRunning (obj p))); simpl; [done|].
  by apply sendAsync_wf.
Qed.

Lemma start_wf newTid p : wf p -> wf (settle p (start newTid p)).
Proof.
  intros Hwf. unfold start, getIsRunning.
  destruct (isRunning (obj p)) eqn:Hrun; simpl; [done|].
  destruct Hwf as [W1 W2 W3 W4 W5 W6 W7 W8].
  destruct (thread (obj p)) as [[tid [|]]|] eqn:Hth; simpl.
  - constructor; simpl; rewrite ?Hth; done.
  - destruct W3 as [_ W3]. specialize (W3 eq_refl).
    constructor; simpl; try done.
    intros m pr Hin. apply W7. revert Hin.
    unfold pipeline, front, pending. simpl. by rewrite W3.
  - destruct W3 as [W3 _].
    constructor; simpl; try done.
    intros m pr Hin. apply W7. revert Hin.
    unfold pipeline, front, pending. simpl. by rewrite W3.
Qed.

Lemma stop_wf p : wf p -> wf (settle p (stop p)).
Proof.
  intros Hwf. unfold stop.
  destruct (thread (obj p)) as [h|] eqn:Hth; simpl; [|done].
  destruct Hwf as [W1 W2 W3 W4 W5 W6 W7 W8].
  constructor; simpl; rewrite ?Hth; try done.
  by rewrite Hth in W3.
Qed.

Lemma dtor_wf p : wf p -> wf (Thread_dtor_signal p).
Proof.
  intros [W1 W2 W3 W4 W5 W6 W7 W8].
  constructor; simpl; try done.
  destruct (thread (obj p)); [done|]. by destruct W3.
Qed.

Lemma join_wf p : wf p -> wf (default p (join p)).
Proof.
  intros Hwf. unfold join.
  destruct (thread (obj p)) as [[tid [|]]|] eqn:Hth; simpl; try done.
  destruct (bool_decide (worker p = Exited)) eqn:Hex; simpl; [|done].
  apply bool_decide_eq_true in Hex.
  destruct Hwf as [W1 W2 W3 W4 W5 W6 W7 W8].
  constructor; simpl; try done.
  rewrite Hth in W3. destruct W3 as [W3 _]. by split.
Qed.

Lemma tick_wf dt p : wf p -> wf (set_now (now p + Z.of_nat dt)%Z p).
Proof.
  intros [W1 W2 W3 W4 W5 W6 W7 W8].
  constructor; simpl; try done.
  destruct (worker p); try done; lia.
Qed.

Lemma step_wf e p : wf p -> wf (step e p).
Proof.
  intros Hwf. unfold step. destruct (aborted p); [done|].
  destruct e.
  - by apply tick_wf.
  - by apply start_wf.
  - by apply stop_wf.
  - by apply join_wf.
  - by apply dtor_wf.
  - by apply send_wf.
  - by apply sendDelayed_wf.
  - by apply sendAsync_wf.
  - by apply sendSync_wf.
  - by apply sendSync_wf.
  - by apply worker_step_wf.
Qed.

Lemma run_app evs1 evs2 p : run (evs1 ++ evs2) p = run evs2 (run evs1 p).
Proof. unfold run. apply foldl_app. Qed.

Lemma run_wf evs p : wf p -> wf (run evs p).
Proof.
  revert p. induction evs as [|e evs IH]; intros p Hwf; simpl; [done|].
  apply IH. by apply step_wf.
Qed.

Lemma reachable_wf p : reachable p -> wf p.
Proof. intros (c & evs & ->). apply run_wf, wf_boot. Qed.

(** ** One event, seen through the views *)

Lemma sendAsync_view e caller c p :
  submits (tag c) e = true ->
  step_view e p (settle p (sendAsync caller c p)).
Proof.
  intros He. unfold sendAsync, getIsAcceptingMessages.
  destruct (isAcceptingMessages (obj p)); simpl; [|by apply sv_same].
  destruct (getIsSameThread (obj p) caller); simpl.
  - apply (sv_in_place e _ _ c); try done.
    unfold front. by rewrite queue_calls_call, app_nil_r.
  - apply (sv_enqueue e _ _ (CallableMessageWithPromise c (nextPromise p)));
      simpl; try done.
    + by intros pr [= <-].
    + unfold front, pending. simpl. by rewrite <- !app_assoc.
    + lia.
Qed.

Lemma sendSync_view e caller c p :
  submits (tag c) e = true ->
  step_view e p (settle p (sendSync caller c p)).
Proof.
  intros He. unfold sendSync.
  destruct (negb (getIsRunning (obj p))); simpl; [by apply sv_same|].
  by apply sendAsync_view.
Qed.

Lemma step_view_of e p : wf p -> step_view e p (step e p).
Proof.
  intros Hwf. unfold step. destruct (aborted p); [by apply sv_same|].
  destruct e.
  - apply sv_same; simpl; try done. lia.
  - unfold start, getIsRunning.
    destruct (isRunning (obj p)); simpl; [by apply sv_same|].
    pose proof (wf_handle p Hwf) as W3.
    destruct (thread (obj p)) as [[tid [|]]|]; simpl.
    + by apply sv_same.
    + destruct W3 as [_ W3]. specialize (W3 eq_refl).
      apply sv_same; simpl; try done.
      unfold front, pending. simpl. by rewrite W3.
    + destruct W3 as [W3 _].
      apply sv_same; simpl; try done.
      unfold front, pending. simpl. by rewrite W3.
  - unfold stop. destruct (thread (obj p)); simpl; by apply sv_same.
  - unfold join. destruct (thread (obj p)) as [[tid [|]]|]; simpl;
      try by apply sv_same.
    destruct (bool_decide (worker p = Exited)); simpl; by apply sv_same.
  - by apply sv_same.
  - unfold send, getIsAcceptingMessages.
    destruct (isAcceptingMessages (obj p)); simpl; [|by apply sv_same].
    apply (sv_enqueue _ _ _ (CallableMessage c)); simpl; try done.
    + unfold msg_tag. simpl. by apply bool_decide_eq_true_2.
    + unfold front, pending. simpl. by rewrite <- !app_assoc.
  - unfold sendDelayed, getIsAcceptingMessages.
    destruct (isAcceptingMessages (obj p)); simpl; [|by apply sv_same].
    by apply (sv_delay _ _ _ c timeout).
  - apply sendAsync_view. simpl. by apply bool_decide_eq_true_2.
  - apply sendSync_view. simpl. by apply bool_decide_eq_true_2.
  - apply sendSync_view. simpl. by apply bool_decide_eq_true_2.
  - apply sv_loop; [done|]. apply worker_step_loop_step.
Qed.

(** The front of the pipeline only ever grows at its back. *)
Lemma step_front e p :
  wf p ->
  exists added,
    front (step e p) = front p ++ added /\
    forall m, m ∈ added ->
      (exists k, (k, m) ∈ delayedQueue (obj p) /\ (k < now p)%Z) \/
      submits (msg_tag m) e = true.
Proof.
  intros Hwf.
  destruct (step_view_of e p Hwf)
    as [H1 H2 H3 H4 H5 H6|m Hm Hpr H1 H2 H3 H4 H5 H6|c d He H1 H2 H3 H4 H5 H6
       |c Hc H1 H2 H3 H4 H5 H6|He Hs].
  - exists []. rewrite H2, app_nil_r. split; [done|]. by intros m ?%elem_of_nil.
  - exists [m]. split; [done|]. intros m' ->%list_elem_of_singleton. by right.
  - exists []. rewrite H2, app_nil_r. split; [done|]. by intros m ?%elem_of_nil.
  - exists []. rewrite H2, app_nil_r. split; [done|]. by intros m ?%elem_of_nil.
  - destruct (loop_step_moves p _ Hwf Hs) as (moved & M1 & M2 & M3).
    exists (snd <$> moved). split; [done|].
    intros m [[k m'] [-> Hin]]%list_elem_of_fmap. left. exists k. split.
    + rewrite M1. apply elem_of_app. by left.
    + rewrite Forall_forall in M3. by apply (M3 (k, m')).
Qed.

Lemma run_front evs p :
  wf p -> exists added, front (run evs p) = front p ++ added.
Proof.
  revert p. induction evs as [|e evs IH]; intros p Hwf; simpl.
  - exists []. by rewrite app_nil_r.
  - destruct (step_front e p Hwf) as (a1 & H1 & _).
    destruct (IH (step e p) (step_wf e p Hwf)) as (a2 & H2).
    exists (a1 ++ a2). by rewrite H2, H1, <- app_assoc.
Qed.


(** Whatever is in the message queue once the loop has left is gone. *)
Lemma exited_front p : wf p -> worker p = Exited -> front p = queue_calls p.
Proof.
  intros Hwf Hw. unfold front, pending.
  rewrite Hw, (wf_exited p Hwf Hw). by rewrite app_nil_r.
Qed.

(** ** The loop left alone *)

Lemma worker_run_S k p : worker_run (S k) p = worker_run k (step EWorker p).
Proof. reflexivity. Qed.

Lemma worker_run_add a b p :
  worker_run (a + b) p = worker_run b (worker_run a p).
Proof. unfold worker_run. by rewrite replicate_add, run_app. Qed.

Lemma worker_run_wf k p : wf p -> wf (worker_run k p).
Proof. apply run_wf. Qed.

Lemma step_worker_live p : aborted p = false -> step EWorker p = worker_step p.
Proof. intros H. unfold step. by rewrite H. Qed.

Lemma worker_run_frame k p :
  let q := worker_run k p in
  isRunning (obj q) = isRunning (obj p) /\
  isAcceptingMessages (obj q) = isAcceptingMessages (obj p) /\
  thread (obj q) = thread (obj p) /\
  now q = now p /\ nextPromise q = nextPromise p /\
  spawned q = spawned p /\ aborted q = aborted p.
Proof.
  revert p. induction k as [|k IH]; intros p; [done|].
  rewrite worker_run_S. simpl.
  destruct (IH (step EWorker p)) as (H1 & H2 & H3 & H4 & H5 & H6 & H7).
  rewrite H1, H2, H3, H4, H5, H6, H7. unfold step.
  destruct (loop_step_frame p _ (worker_step_loop_step p))
    as (G1 & G2 & G3 & G4 & G5 & G6 & G7).
  destruct (aborted p) eqn:E; [by rewrite E|].
  by rewrite G1, G2, G3, G4, G5, G6, G7.
Qed.

Lemma worker_run_moves k p :
  wf p ->
  exists moved,
    delayedQueue (obj p) = moved ++ delayedQueue (obj (worker_run k p)) /\
    front (worker_run k p) = front p ++ (snd <$> moved) /\
    Forall (fun e => (e.1 < now p)%Z) moved.
Proof.
  revert p. induction k as [|k IH]; intros p Hwf.
  - exists []. simpl. by rewrite app_nil_r.
  - rewrite worker_run_S.
    assert (H1 : exists moved,
               delayedQueue (obj p) = moved ++ delayedQueue (obj (step EWorker p)) /\
               front (step EWorker p) = front p ++ (snd <$> moved) /\
               Forall (fun e => (e.1 < now p)%Z) moved /\
               now (step EWorker p) = now p).
    { unfold step. destruct (aborted p).
      - exists []. simpl. by rewrite app_nil_r.
      - destruct (loop_step_moves p _ Hwf (worker_step_loop_step p))
          as (mv & M1 & M2 & M3).
        destruct (loop_step_frame p _ (worker_step_loop_step p))
          as (_ & _ & _ & F4 & _).
        by exists mv. }
    destruct H1 as (mv1 & A1 & A2 & A3 & A4).
    destruct (IH (step EWorker p) (step_wf EWorker p Hwf)) as (mv2 & B1 & B2 & B3).
    exists (mv1 ++ mv2). rewrite B2, A2, A1, B1 at 1.
    rewrite fmap_app, <- !app_assoc. repeat split.
    apply Forall_app. split; [done|]. by rewrite A4 in B3.
Qed.

(** With the running flag clear the loop is out within seven steps. *)
Lemma loop_step_exit_dist p q :
  loop_step p q ->
  isRunning (obj p) = false ->
  worker p <> NotSpawned ->
  worker q <> NotSpawned /\ exit_dist (worker q) <= pred (exit_dist (worker p)).
Proof.
  intros Hs Hrun Hw.
  destruct Hs as [H|H|H|t H H1 H2|t mv rest w mq H H1 H2 H3|H|m H|H];
    simpl; rewrite ?Hrun; simpl.
  - destruct H as [H|H]; [done|]. rewrite H. simpl. split; [done|lia].
  - rewrite H. simpl. split; [done|lia].
  - rewrite H. simpl. split; [done|lia].
  - rewrite H. simpl. split; [done|lia].
  - destruct H3 as [(next & -> & _)|(d & -> & _ & _ & [H'|H'])]; simpl;
      (split; [done|]).
    + destruct H as [H|[H|[d' H]]]; rewrite H; simpl; lia.
    + rewrite H'. simpl. lia.
    + rewrite H'. simpl. lia.
  - rewrite H. simpl. split; [done|lia].
  - rewrite H. simpl. split; [done|lia].
  - rewrite H. simpl. split; [done|lia].
Qed.

Lemma worker_run_exits n p :
  wf p -> aborted p = false ->
  isRunning (obj p) = false -> worker p <> NotSpawned ->
  exit_dist (worker p) <= n ->
  worker (worker_run n p) = Exited.
Proof.
  revert p. induction n as [|n IH]; intros p Hwf Hab Hrun Hw Hd.
  - change (worker_run 0 p) with p.
    destruct (worker p); simpl in Hd; try done; lia.
  - rewrite worker_run_S, step_worker_live by done.
    pose proof (worker_step_loop_step p) as Hs.
    destruct (loop_step_exit_dist p _ Hs Hrun Hw) as [Hw' Hd'].
    destruct (loop_step_frame p _ Hs) as (F1 & _ & _ & _ & _ & _ & F7).
    apply IH; [by apply worker_step_wf|congruence|congruence|done|lia].
Qed.

Lemma worker_run_exited k p : worker p = Exited -> worker_run k p = p.
Proof.
  intros Hw. induction k as [|k IH]; [done|].
  rewrite worker_run_S. unfold step. destruct (aborted p); [done|].
  unfold worker_step. by rewrite Hw.
Qed.

(** With the running flag set the loop gets to the oldest pending message. *)
Lemma loop_step_call_dist p q :
  loop_step p q ->
  isRunning (obj p) = true ->
  in_loop (worker p) ->
  pending p <> [] ->
  (forall m, worker p <> Call (Some m)) ->
  in_loop (worker q) /\ call_dist (worker q) < call_dist (worker p) /\
  calls q = calls p /\ promises q = promises p.
Proof.
  intros Hs Hrun Hin Hpend Hnc.
  destruct Hs as [H|H|H|t H H1 H2|t mv rest w mq H H1 H2 H3|H|m H|H];
    simpl; rewrite ?Hrun; simpl.
  - destruct H as [H|H]; by rewrite H in Hin.
  - rewrite H. simpl. repeat split. lia.
  - rewrite H. simpl. repeat split. lia.
  - unfold pending in Hpend. by rewrite H, H1 in Hpend.
  - assert (Hd : 2 <= call_dist (worker p))
      by (destruct H as [H|[H|[d' H]]]; rewrite H; simpl; lia).
    destruct H3 as [(next & -> & H3 & Hnone)|(d & -> & _ & _ & [H'|H'])]; simpl.
    + destruct next as [m|]; simpl; [repeat split; lia|].
      specialize (Hnone eq_refl). subst mq. simpl in H3.
      symmetry in H3. apply app_eq_nil in H3 as [H3 _].
      unfold pending in Hpend.
      destruct H as [H|[H|[d' H]]]; by rewrite H, H3 in Hpend.
    + rewrite H'. simpl. repeat split. lia.
    + rewrite H'. simpl. repeat split. lia.
  - rewrite H. simpl. repeat split. lia.
  - by specialize (Hnc m).
  - by rewrite H in Hin.
Qed.

Lemma loop_step_pending_quiet p q :
  wf p -> loop_step p q -> calls q = calls p ->
  exists extra, pending q = pending p ++ extra.
Proof.
  intros Hwf Hs Hc.
  destruct (loop_step_moves p q Hwf Hs) as (moved & _ & M2 & _).
  exists (snd <$> moved). unfold front, queue_calls in M2.
  rewrite Hc, <- app_assoc in M2. by apply app_inv_head in M2.
Qed.

Lemma progress_to_call n p m rest :
  wf p -> aborted p = false -> isRunning (obj p) = true ->
  pending p = m :: rest ->
  call_dist (worker p) <= n ->
  exists k extra,
    k <= n /\
    worker (worker_run k p) = LoopHead /\
    calls (worker_run k p) = calls p ++ [CallRecord m (now p) false] /\
    promises (worker_run k p) = set_value m (promises p) /\
    pending (worker_run k p) = rest ++ extra.
Proof.
  revert p rest. induction n as [|n IH]; intros p rest Hwf Hab Hrun Hpend Hd.
  - pose proof (wf_running p Hwf Hrun) as Hin.
    destruct (worker p) as [| | | | | |[?|]| |]; simpl in *; try done; lia.
  - pose proof (wf_running p Hwf Hrun) as Hin.
    assert (Hcases : (exists m', worker p = Call (Some m')) \/
                     (forall m', worker p <> Call (Some m'))).
    { destruct (worker p) as [| | | | | |[m'|]| |]; try (by right).
      left. by exists m'. }
    destruct Hcases as [[m' Hw]|Hnc'].
    + exists 1, []. split; [lia|].
      change (worker_run 1 p) with (step EWorker p).
      rewrite step_worker_live by done. unfold worker_step. rewrite Hw.
      unfold pending in Hpend. rewrite Hw in Hpend. simpl in Hpend.
      injection Hpend as -> Hmq. unfold pending. simpl.
      by rewrite app_nil_r.
    + pose proof (worker_step_loop_step p) as Hs.
      destruct (loop_step_call_dist p _ Hs Hrun Hin) as (Hin' & Hd' & Hc & Hp);
        [by rewrite Hpend|done|].
      destruct (loop_step_pending_quiet p _ Hwf Hs Hc) as (extra & Hpe).
      destruct (loop_step_frame p _ Hs) as (F1 & _ & _ & F4 & _ & _ & F7).
      destruct (IH (worker_step p) (rest ++ extra)) as (k & extra' & K1 & K2 & K3 & K4 & K5).
      * by apply worker_step_wf.
      * congruence.
      * congruence.
      * by rewrite Hpe, Hpend.
      * lia.
      * exists (S k), (extra ++ extra'). split; [lia|].
        rewrite worker_run_S, step_worker_live by done.
        rewrite K2, K3, K4, K5, Hc, Hp, F4. by rewrite <- app_assoc.
Qed.

Lemma call_dist_bound w : call_dist w <= 6.
Proof. destruct w as [| | | | | |[?|]| |]; simpl; lia. Qed.

(** The loop, left alone and running, calls what is pending, in order. *)
Lemma progress_prefix ms p rest :
  wf p -> aborted p = false -> isRunning (obj p) = true ->
  pending p = ms ++ rest ->
  exists k extra,
    k <= 6 * length ms /\
    calls (worker_run k p) =
      calls p ++ ((fun m => CallRecord m (now p) false) <$> ms) /\
    promises (worker_run k p) =
      foldl (fun sh m => set_value m sh) (promises p) ms /\
    pending (worker_run k p) = rest ++ extra.
Proof.
  revert p rest. induction ms as [|m ms IH]; intros p rest Hwf Hab Hrun Hpend.
  - exists 0, []. simpl. rewrite !app_nil_r. by repeat split.
  - destruct (progress_to_call 6 p m (ms ++ rest) Hwf Hab Hrun Hpend
                (call_dist_bound _)) as (k1 & e1 & K1 & K2 & K3 & K4 & K5).
    destruct (worker_run_frame k1 p) as (F1 & _ & _ & F4 & _ & _ & F7).
    destruct (IH (worker_run k1 p) (rest ++ e1))
      as (k2 & e2 & L1 & L2 & L3 & L4).
    + by apply worker_run_wf.
    + congruence.
    + congruence.
    + by rewrite K5, <- app_assoc.
    + exists (k1 + k2), (e1 ++ e2). split; [simpl; lia|].
      rewrite worker_run_add, L2, L3, L4, K3, K4, F4. simpl.
      by rewrite <- !app_assoc.
Qed.

(** ** Admission *)

Lemma step_keeps_closed e p :
  isAcceptingMessages (obj p) = false ->
  isAcceptingMessages (obj (step e p)) = false.
Proof.
  intros Hacc. unfold step. destruct (aborted p); [done|].
  destruct e; simpl; try done.
  - unfold start, getIsRunning. destruct (isRunning (obj p)); simpl; [done|].
    by destruct (thread (obj p)) as [[? [|]]|].
  - unfold stop. by destruct (thread (obj p)).
  - unfold join. destruct (thread (obj p)) as [[? [|]]|]; simpl; try done.
    by destruct (bool_decide (worker p = Exited)).
  - unfold send, getIsAcceptingMessages. by rewrite Hacc.
  - unfold sendDelayed, getIsAcceptingMessages. by rewrite Hacc.
  - unfold sendAsync, getIsAcceptingMessages. by rewrite Hacc.
  - unfold sendSync, sendAsync, getIsAcceptingMessages. rewrite Hacc.
    by destruct (negb (getIsRunning (obj p))).
  - unfold sendWait, sendSync, sendAsync, getIsAcceptingMessages. rewrite Hacc.
    by destruct (negb (getIsRunning (obj p))).
  - destruct (loop_step_frame p _ (worker_step_loop_step p)) as (_ & -> & _).
    done.
Qed.

Lemma run_keeps_closed evs p :
  isAcceptingMessages (obj p) = false ->
  isAcceptingMessages (obj (run evs p)) = false.
Proof.
  revert p. induction evs as [|e evs IH]; intros p H; simpl; [done|].
  by apply IH, step_keeps_closed.
Qed.



Lemma step_keeps_running e p :
  is_stop e = false ->
  isRunning (obj p) = true ->
  isRunning (obj (step e p)) = true.
Proof.
  intros He Hrun. unfold step. destruct (aborted p); [done|].
  destruct e; simpl; try done.
  - unfold start, getIsRunning. by rewrite Hrun.
  - unfold join. destruct (thread (obj p)) as [[? [|]]|]; simpl; try done.
    by destruct (bool_decide (worker p = Exited)).
  - unfold send. by destruct (getIsAcceptingMessages (obj p)).
  - unfold sendDelayed. by destruct (getIsAcceptingMessages (obj p)).
  - unfold sendAsync. destruct (getIsAcceptingMessages (obj p)); [|done].
    simpl. by destruct (getIsSameThread (obj p) caller).
  - unfold sendSync, sendAsync.
    destruct (negb (getIsRunning (obj p))); [done|].
    destruct (getIsAcceptingMessages (obj p)); [|done].
    simpl. by destruct (getIsSameThread (obj p) caller).
  - unfold sendWait, sendSync, sendAsync.
    destruct (negb (getIsRunning (obj p))); [done|].
    destruct (getIsAcceptingMessages (obj p)); [|done].
    simpl. by destruct (getIsSameThread (obj p) caller).
  - destruct (loop_step_frame p _ (worker_step_loop_step p)) as (-> & _).
    done.
Qed.

Lemma run_keeps_running evs p :
  no_stop evs = true ->
  isRunning (obj p) = true ->
  isRunning (obj (run evs p)) = true.
Proof.
  revert p. induction evs as [|e evs IH]; intros p Hns H; simpl; [done|].
  simpl in Hns. apply andb_true_iff in Hns as [He Hns].
  apply negb_true_iff in He. by apply IH, step_keeps_running.
Qed.

(** C10.  A send refused for admission throws before it touches anything:
    with [isAcceptingMessages] false, [send], [sendDelayed] and [sendAsync]
    throw the not-accepting error and hand back the very process they
    were given, both queues and both flags included. *)
Theorem admission_failure_is_atomic p caller c d :
  isAcceptingMessages (obj p) = false ->
  send c p = Thrown NotAccepting p /\
  sendDelayed c d p = Thrown NotAccepting p /\
  sendAsync caller c p = Thrown NotAccepting p.
Proof.
  intros Hacc. unfold send, sendDelayed, sendAsync, getIsAcceptingMessages.
  rewrite Hacc. repeat split.
Qed.

Lemma admission_failure_is_atomic_witness :
  let p := run [EStart 7; ESend (Callable 1 10); EStop] (boot 1) in
  isAcceptingMessages (obj p) = false /\
  (send (Callable 2 20) p = Thrown NotAccepting p /\
   sendDelayed (Callable 2 20) 5%Z p = Thrown NotAccepting p /\
   sendAsync 3 (Callable 2 20) p = Thrown NotAccepting p).
Proof.
  split; [reflexivity|].
  apply (admission_failure_is_atomic _ 3 (Callable 2 20) 5%Z). reflexivity.
Defined.

(** ** Same-thread detection *)

(** C9.  When the caller is the thread [getId] names, [sendAsync] calls the
    message in place: on return the call is logged as made in place at the
    current time, the future already holds the value of the callable, and
    neither queue nor the loop has changed. *)
Theorem sendAsync_same_thread_in_place p caller c :
  isAcceptingMessages (obj p) = true ->
  getId (obj p) caller = this_thread_get_id caller ->
  exists q,
    sendAsync caller c p = Returned (nextPromise p) q /\
    future_get (nextPromise p) q = Some (result c) /\
    calls q = calls p ++
              [CallRecord (CallableMessageWithPromise c (nextPromise p))
                          (now p) true] /\
    messageQueue (obj q) = messageQueue (obj p) /\
    delayedQueue (obj q) = delayedQueue (obj p) /\
    worker q = worker p.
Proof.
  intros Hacc Hid. unfold sendAsync, getIsAcceptingMessages. rewrite Hacc.
  simpl. unfold getIsSameThread. simpl.
  rewrite bool_decide_eq_true_2 by exact Hid.
  eexists. split; [reflexivity|]. unfold future_get. simpl.
  rewrite lookup_insert_eq. repeat split.
Qed.

Lemma sendAsync_same_thread_in_place_witness :
  let p := run [EStart 7; ESend (Callable 1 10)] (boot 1) in
  isAcceptingMessages (obj p) = true /\
  getId (obj p) 7 = this_thread_get_id 7 /\
  exists q,
    sendAsync 7 (Callable 2 42) p = Returned (nextPromise p) q /\
    future_get (nextPromise p) q = Some (result (Callable 2 42)) /\
    calls q = calls p ++
              [CallRecord (CallableMessageWithPromise (Callable 2 42) (nextPromise p))
                          (now p) true] /\
    messageQueue (obj q) = messageQueue (obj p) /\
    delayedQueue (obj q) = delayedQueue (obj p) /\
    worker q = worker p.
Proof.
  split; [reflexivity|]. split; [reflexivity|].
  apply (sendAsync_same_thread_in_place _ 7 (Callable 2 42)); reflexivity.
Defined.

(** C2, as the code has it.  While no thread has been started [getId] is
    the identity of whoever asks, so every caller is taken for the same
    thread, and a [sendAsync] let in is called in place by the caller:
    the future is fulfilled on return and nothing is put in a queue. *)
Theorem getId_before_start_is_caller p caller c :
  thread (obj p) = None ->
  getId (obj p) caller = this_thread_get_id caller /\
  getIsSameThread (obj p) caller = true /\
  (isAcceptingMessages (obj p) = true ->
   exists q,
     sendAsync caller c p = Returned (nextPromise p) q /\
     future_get (nextPromise p) q = Some (result c) /\
     calls q = calls p ++
               [CallRecord (CallableMessageWithPromise c (nextPromise p))
                           (now p) true] /\
     messageQueue (obj q) = messageQueue (obj p) /\
     delayedQueue (obj q) = delayedQueue (obj p)).
Proof.
  intros Hth.
  assert (Hid : getId (obj p) caller = this_thread_get_id caller)
    by (unfold getId; by rewrite Hth).
  split; [exact Hid|]. split.
  - unfold getIsSameThread. by apply bool_decide_eq_true_2.
  - intros Hacc. unfold sendAsync, getIsAcceptingMessages. rewrite Hacc.
    simpl. unfold getIsSameThread. simpl.
    rewrite bool_decide_eq_true_2 by exact Hid.
    eexists. split; [reflexivity|]. unfold future_get. simpl.
    rewrite lookup_insert_eq. repeat split.
Qed.

Lemma getId_before_start_is_caller_witness :
  let p := run [ESend (Callable 1 10)] (boot 1) in
  thread (obj p) = None /\
  getId (obj p) 2 = this_thread_get_id 2 /\
  getIsSameThread (obj p) 2 = true /\
  (isAcceptingMessages (obj p) = true ->
   exists q,
     sendAsync 2 (Callable 2 42) p = Returned (nextPromise p) q /\
     future_get (nextPromise p) q = Some (result (Callable 2 42)) /\
     calls q = calls p ++
               [CallRecord (CallableMessageWithPromise (Callable 2 42) (nextPromise p))
                           (now p) true] /\
     messageQueue (obj q) = messageQueue (obj p) /\
     delayedQueue (obj q) = delayedQueue (obj p)).
Proof.
  split; [reflexivity|].
  apply (getId_before_start_is_caller _ 2 (Callable 2 42)). reflexivity.
Defined.

(** C2, as stated, fails.  The object is built by thread 1 and thread 2
    sends before [start]: [getId] answers 2, not 1; the caller passes for
    the same thread; the message is called in place and the message queue
    stays empty. *)
Lemma getId_before_start_counterexample :
  2 <> 1 /\
  getId (Thread_ctor 1) 2 <> this_thread_get_id 1 /\
  getIsSameThread (Thread_ctor 1) 2 = true /\
  exists q,
    sendAsync 2 (Callable 5 42) (boot 1) = Returned 0 q /\
    messageQueue (obj q) = [] /\
    calls q = [CallRecord (CallableMessageWithPromise (Callable 5 42) 0) 0%Z true].
Proof.
  split; [lia|]. split; [discriminate|]. split; [reflexivity|].
  eexists. split; [reflexivity|]. split; reflexivity.
Qed.




(** ** Starting *)

(** [start] tests the running flag: once a [start] has returned, and as
    long as no [stop] (or destruction) follows, every further [start]
    throws the already-started error and hands back the process untouched,
    so no thread is spawned. *)
Lemma start_while_running_rejected p0 p1 tid1 evs tid2 :
  start tid1 p0 = Returned tt p1 ->
  no_stop evs = true ->
  start tid2 (run evs p1) = Thrown AlreadyStarted (run evs p1).
Proof.
  intros Hstart Hns.
  assert (Hrun : isRunning (obj p1) = true).
  { unfold start in Hstart. destruct (negb (getIsRunning (obj p0))); [|done].
    destruct (match thread (setIsRunning true (obj p0)) with
              | Some old => joinable old | None => false end); [done|].
    by injection Hstart as <-. }
  pose proof (run_keeps_running evs p1 Hns Hrun) as H.
  unfold start, getIsRunning. by rewrite H.
Qed.

Example start_while_running_rejected_example :
  let p1 := run [EStart 7] (boot 1) in
  let evs := [ESend (Callable 1 10); EWorker; Tick 2; EWorker] in
  start 8 (run evs p1) = Thrown AlreadyStarted (run evs p1).
Proof. reflexivity. Qed.

(** C4 on the failing inputs.  A thread is started, stopped, left to
    finish and joined; [start] called again returns: a second thread is
    spawned and runs the loop.  Without the [join] in between, the second
    [start] destroys a joinable [std::thread] and the process terminates. *)
Theorem start_after_stop_not_rejected :
  let joined := run [EStart 7; EStop; EWorker; EWorker; EJoin] (boot 1) in
  let unjoined := run [EStart 7; EStop] (boot 1) in
  spawned joined = 1 /\ aborted joined = false /\
  (exists q,
     start 8 joined = Returned tt q /\
     spawned q = 2 /\
     worker q = LoopHead /\
     isRunning (obj q) = true /\
     isAcceptingMessages (obj q) = false /\
     thread (obj q) = Some (StdThread 8 true)) /\
  start 8 unjoined = Terminated.
Proof.
  split; [reflexivity|]. split; [reflexivity|]. split; [|reflexivity].
  eexists. split; [reflexivity|]. repeat split.
Qed.

(** ** Equal deadlines *)

(** Accepted and dropped: with the deadline already a key of the delayed
    queue, [sendDelayed] returns and the process is exactly as before. *)
Lemma sendDelayed_deadline_taken p c d :
  wf p ->
  isAcceptingMessages (obj p) = true ->
  (now p + d)%Z ∈ (fst <$> delayedQueue (obj p)) ->
  sendDelayed c d p = Returned tt p.
Proof.
  intros Hwf Hacc Hin. unfold sendDelayed, getIsAcceptingMessages.
  rewrite Hacc. rewrite map_emplace_present; [|apply Hwf|exact Hin].
  by open_process p.
Qed.

(** C1 on the failing input.  Callables [a] and [b] are sent with the same
    delay at the same reading of the clock.  The second [sendDelayed]
    returns normally and leaves the process as it was.  The clock passes
    the deadline, the loop runs, the thread is stopped and finishes: only
    [a] was ever called. *)
Theorem equal_deadlines_second_dropped :
  let a := Callable 1 0 in
  let b := Callable 2 0 in
  let p1 := run [EStart 7; ESendDelayed a 5] (boot 1) in
  let final :=
    run ([ESendDelayed b 5; Tick 10] ++ replicate 12 EWorker ++
         [EStop] ++ replicate 7 EWorker) p1 in
  sendDelayed b 5 p1 = Returned tt p1 /\
  delayedQueue (obj p1) = [(5%Z, CallableMessage a)] /\
  calls final = [CallRecord (CallableMessage a) 10 false] /\
  worker final = Exited /\
  messageQueue (obj final) = [] /\
  delayedQueue (obj final) = [].
Proof. repeat split. Qed.

(** ** Order of the immediate queue *)

Lemma queue_calls_loop_records p q t ms :
  calls q = calls p ++ ((fun m => CallRecord m t false) <$> ms) ->
  queue_calls q = queue_calls p ++ ms.
Proof.
  intros H. unfold queue_calls. rewrite H, filter_queue_app, fmap_app. f_equal.
  clear H. induction ms as [|m ms IH]; [done|].
  rewrite fmap_cons, filter_cons_True by done. rewrite fmap_cons. by f_equal.
Qed.

Lemma run_cons e evs p : run (e :: evs) p = run evs (step e p).
Proof. reflexivity. Qed.

Lemma sends_spec cs p :
  isAcceptingMessages (obj p) = true -> aborted p = false ->
  pending (run (ESend <$> cs) p) = pending p ++ (CallableMessage <$> cs) /\
  calls (run (ESend <$> cs) p) = calls p /\
  isAcceptingMessages (obj (run (ESend <$> cs) p)) = true /\
  aborted (run (ESend <$> cs) p) = false /\
  isRunning (obj (run (ESend <$> cs) p)) = isRunning (obj p).
Proof.
  revert p. induction cs as [|c cs IH]; intros p Hacc Hab.
  - simpl. by rewrite app_nil_r.
  - assert (Hs : step (ESend c) p =
                 set_obj (set_messageQueue
                            (messageQueue (obj p) ++ [CallableMessage c])
                            (obj p)) p).
    { unfold step, send, getIsAcceptingMessages. by rewrite Hab, Hacc. }
    rewrite fmap_cons, run_cons, Hs.
    destruct (IH (set_obj (set_messageQueue
                             (messageQueue (obj p) ++ [CallableMessage c])
                             (obj p)) p) Hacc Hab) as (H1 & H2 & H3 & H4 & H5).
    rewrite H1, H2, H3, H4, H5. unfold pending. simpl.
    by rewrite <- !app_assoc.
Qed.

(** C5.  Callables [cs] are sent one after the other while admission is
    open.  They sit at the back of the front of the pipeline in the order
    sent; whatever is scheduled next, things are only ever added behind
    them, so the loop calls what was ahead of them, then them in the order
    sent, and once it has left it has called them all.  If the thread is
    running, the loop left alone gets there within six steps per pending
    message. *)
Theorem immediate_sends_are_fifo constructor evs0 cs evs :
  let p0 := run evs0 (boot constructor) in
  let p1 := run (ESend <$> cs) p0 in
  isAcceptingMessages (obj p0) = true ->
  aborted p0 = false ->
  front p1 = front p0 ++ (CallableMessage <$> cs) /\
  (exists rest,
     front (run evs p1) = front p0 ++ (CallableMessage <$> cs) ++ rest /\
     (worker (run evs p1) = Exited ->
      queue_calls (run evs p1) = front p0 ++ (CallableMessage <$> cs) ++ rest)) /\
  (isRunning (obj p0) = true ->
   exists k, k <= 6 * length (pending p1) /\
             queue_calls (worker_run k p1) =
               front p0 ++ (CallableMessage <$> cs)).
Proof.
  intros p0 p1 Hacc Hab.
  assert (Hwf0 : wf p0) by apply run_wf, wf_boot.
  assert (Hwf1 : wf p1) by by apply run_wf.
  destruct (sends_spec cs p0 Hacc Hab) as (S1 & S2 & S3 & S4 & S5).
  fold p1 in S1, S2, S3, S4, S5.
  assert (Hfront : front p1 = front p0 ++ (CallableMessage <$> cs)).
  { unfold front, queue_calls. by rewrite S1, S2, <- app_assoc. }
  split; [exact Hfront|]. split.
  - destruct (run_front evs p1 Hwf1) as (rest & Hrest).
    exists rest. rewrite Hrest, Hfront, <- app_assoc. split; [done|].
    intros Hw. rewrite <- (exited_front _ (run_wf evs p1 Hwf1) Hw).
    by rewrite Hrest, Hfront, <- app_assoc.
  - intros Hrun.
    destruct (progress_prefix (pending p1) p1 [] Hwf1 S4)
      as (k & extra & K1 & K2 & _ & _);
      [congruence|by rewrite app_nil_r|].
    exists k. split; [exact K1|].
    rewrite (queue_calls_loop_records p1 _ _ _ K2). by rewrite <- Hfront.
Qed.

Lemma immediate_sends_are_fifo_witness :
  let p0 := run [EStart 7; ESend (Callable 9 0); EWorker] (boot 1) in
  let cs := [Callable 1 10; Callable 2 20; Callable 3 30] in
  let p1 := run (ESend <$> cs) p0 in
  (isAcceptingMessages (obj p0) = true /\ aborted p0 = false) /\
  front p1 = front p0 ++ (CallableMessage <$> cs).
Proof.
  split; [split; reflexivity|].
  exact (proj1 (immediate_sends_are_fifo 1
                  [EStart 7; ESend (Callable 9 0); EWorker]
                  [Callable 1 10; Callable 2 20; Callable 3 30]
                  [] eq_refl eq_refl)).
Defined.

(** ** Shutting down *)

(** C7.  [runLeftovers] calls every message of the message queue, front
    first, leaves the queue empty and the delayed queue as it was, and the
    loop is over.  After [stop] has returned (or the destructor has
    cleared the flags of a started thread) the loop is out within seven of
    its steps: by then it has called everything that was in the front of
    the pipeline, in order, followed only by delayed messages it promoted
    on the way, all of them past their deadline; what is left in the
    delayed queue, every entry not yet due among it, stays there, for the
    loop does nothing more. *)
Theorem drain_on_stop p p' r :
  reachable p -> aborted p = false ->
  (stop p = Returned tt p' \/
   (thread (obj p) <> None /\ p' = Thread_dtor_signal p)) ->
  worker r = RunLeftovers ->
  (worker (worker_step r) = Exited /\
   messageQueue (obj (worker_step r)) = [] /\
   calls (worker_step r) =
     calls r ++ ((fun m => CallRecord m (now r) false) <$> messageQueue (obj r)) /\
   delayedQueue (obj (worker_step r)) = delayedQueue (obj r)) /\
  let q := worker_run 7 p' in
  worker q = Exited /\
  messageQueue (obj q) = [] /\
  (exists moved,
     queue_calls q = front p' ++ (snd <$> moved) /\
     delayedQueue (obj p') = moved ++ delayedQueue (obj q) /\
     Forall (fun e => (e.1 < now p')%Z) moved) /\
  (forall k m, (k, m) ∈ delayedQueue (obj p') -> (now p' <= k)%Z ->
               (k, m) ∈ delayedQueue (obj q)) /\
  (forall k, worker_run k q = q).
Proof.
  intros Hreach Hab Hstop Hr. split.
  - unfold worker_step. rewrite Hr. unfold runLeftovers.
    destruct (runLeftovers_loop_spec (messageQueue (obj r)) r)
      as (H1 & _ & _ & _ & _ & _ & H7 & _). simpl in *.
    by rewrite H1, H7.
  - pose proof (reachable_wf p Hreach) as Hwf.
    assert (Hp' : wf p' /\ aborted p' = false /\ isRunning (obj p') = false /\
                  worker p' <> NotSpawned).
    { pose proof (wf_handle p Hwf) as W3.
      destruct Hstop as [Hstop|[Hth ->]].
      - pose proof (stop_wf p Hwf) as Hwf'. unfold stop in *.
        destruct (thread (obj p)); [|done]. injection Hstop as <-.
        simpl in *. by destruct W3.
      - pose proof (dtor_wf p Hwf) as Hwf'.
        destruct (thread (obj p)); [|done]. by destruct W3. }
    destruct Hp' as (Hwf' & Hab' & Hrun' & Hw').
    intros q.
    assert (Hq : worker q = Exited).
    { apply worker_run_exits; try done. destruct (worker p'); simpl; lia. }
    pose proof (worker_run_wf 7 p' Hwf') as Hwfq. fold q in Hwfq.
    destruct (worker_run_moves 7 p' Hwf') as (moved & M1 & M2 & M3).
    fold q in M1, M2.
    split; [exact Hq|]. split; [by apply wf_exited|]. split; [|split].
    + exists moved. by rewrite <- (exited_front q Hwfq Hq).
    + intros k m Hin Hk. rewrite M1 in Hin.
      apply elem_of_app in Hin as [Hin|Hin]; [|done].
      rewrite Forall_forall in M3. specialize (M3 _ Hin). simpl in M3. lia.
    + intros k. by apply worker_run_exited.
Qed.

Lemma drain_on_stop_witness :
  let p := run [EStart 7; ESend (Callable 1 0); ESend (Callable 2 0);
                ESend (Callable 3 0); ESendDelayed (Callable 4 0) 50] (boot 1) in
  let p' := step EStop p in
  let r := set_worker RunLeftovers p' in
  let q := worker_run 7 p' in
  (reachable p /\ aborted p = false /\ stop p = Returned tt p' /\
   worker r = RunLeftovers) /\
  calls (worker_step r) =
    calls r ++ ((fun m => CallRecord m (now r) false) <$> messageQueue (obj r)) /\
  worker q = Exited /\
  queue_calls q = [CallableMessage (Callable 1 0); CallableMessage (Callable 2 0);
                   CallableMessage (Callable 3 0)] /\
  delayedQueue (obj q) = [(50%Z, CallableMessage (Callable 4 0))].
Proof.
  assert (Hreach : reachable
            (run [EStart 7; ESend (Callable 1 0); ESend (Callable 2 0);
                  ESend (Callable 3 0); ESendDelayed (Callable 4 0) 50] (boot 1)))
    by (exists 1; eexists; reflexivity).
  pose proof (drain_on_stop _ _
                (set_worker RunLeftovers
                   (step EStop
                      (run [EStart 7; ESend (Callable 1 0); ESend (Callable 2 0);
                            ESend (Callable 3 0); ESendDelayed (Callable 4 0) 50]
                           (boot 1))))
                Hreach eq_refl (or_introl eq_refl) eq_refl) as [Ha Hb].
  split; [by repeat split|].
  split; [exact (proj1 (proj2 (proj2 Ha)))|].
  split; [exact (proj1 Hb)|]. split; reflexivity.
Defined.

(** ** Futures *)

Lemma pipeline_uncalled p : pipeline p = queue_calls p ++ uncalled p.
Proof. unfold pipeline, front, uncalled. by rewrite <- app_assoc. Qed.

Lemma pending_of_views p q added :
  calls q = calls p -> front q = front p ++ added ->
  pending q = pending p ++ added.
Proof.
  unfold front, queue_calls. intros -> H.
  rewrite <- app_assoc in H. by apply app_inv_head in H.
Qed.

Lemma loop_step_uncalled p q :
  wf p -> loop_step p q ->
  exists ms,
    uncalled p = ms ++ uncalled q /\
    promises q = foldl (fun sh m => set_value m sh) (promises p) ms.
Proof.
  intros Hwf Hs.
  destruct (loop_step_calls p q Hs) as (ms & _ & Hc & Hp).
  exists ms. split; [|done].
  pose proof (loop_step_pipeline p q Hwf Hs) as Hpipe.
  rewrite !pipeline_uncalled, (queue_calls_loop_records p q _ _ Hc),
    <- app_assoc in Hpipe.
  apply app_inv_head in Hpipe. by symmetry.
Qed.

Lemma step_promise_inv fut c e p :
  wf p -> promise_inv fut c p -> promise_inv fut c (step e p).
Proof.
  intros Hwf (I1 & I2 & I3).
  destruct (step_view_of e p Hwf)
    as [H1 H2 H3 H4 H5 H6|m Hm Hpr H1 H2 H3 H4 H5 H6|c' d He H1 H2 H3 H4 H5 H6
       |c' Hc H1 H2 H3 H4 H5 H6|He Hs].
  - assert (Hp : pending (step e p) = pending p).
    { rewrite (pending_of_views p _ [] H1); by rewrite ?app_nil_r. }
    unfold promise_inv, uncalled. by rewrite H6, H4, H3, Hp.
  - pose proof (pending_of_views p _ [m] H1 H2) as Hp.
    unfold promise_inv, uncalled. rewrite H4, H3, Hp.
    split; [lia|]. split; [|done].
    intros m'. rewrite <- app_assoc. rewrite !elem_of_app.
    intros [Hin|[Hin|Hin]] Hf.
    + apply I2; [|done]. unfold uncalled. apply elem_of_app. by left.
    + apply list_elem_of_singleton in Hin as ->.
      specialize (Hpr _ Hf). lia.
    + apply I2; [|done]. unfold uncalled. apply elem_of_app. by right.
  - assert (Hp : pending (step e p) = pending p).
    { rewrite (pending_of_views p _ [] H1); by rewrite ?app_nil_r. }
    unfold promise_inv, uncalled. rewrite H6, H4, H3, Hp.
    split; [done|]. split; [|done].
    intros m'. rewrite elem_of_app. intros [Hin|Hin] Hf.
    + apply I2; [|done]. unfold uncalled. apply elem_of_app. by left.
    + apply list_elem_of_fmap in Hin as [[k m0] [-> Hin]].
      apply map_emplace_elem in Hin as [[= -> ->]|Hin]; [done|].
      apply I2; [|done]. unfold uncalled. apply elem_of_app. right.
      apply list_elem_of_fmap. by exists (k, m0).
  - assert (Hp : pending (step e p) = pending p).
    { unfold front in H2. rewrite <- (app_nil_r (calls p)) in H1.
      assert (Hq : queue_calls (step e p) = queue_calls p).
      { unfold queue_calls. rewrite H1, filter_queue_app. simpl.
        rewrite filter_cons_False by done. by rewrite !app_nil_r. }
      rewrite Hq in H2. by apply app_inv_head in H2. }
    unfold promise_inv, uncalled. rewrite H6, H4, H3, Hp.
    split; [lia|]. split; [done|].
    rewrite lookup_insert_ne by lia. done.
  - destruct (loop_step_frame p _ Hs) as (_ & _ & _ & _ & F5 & _).
    destruct (loop_step_uncalled p _ Hwf Hs) as (ms & U1 & U2).
    unfold promise_inv. rewrite F5, U2. split; [done|]. split.
    + intros m Hin. apply I2. rewrite U1. apply elem_of_app. by right.
    + destruct (set_value_lookup ms (promises p) fut) as [->|(m & M1 & M2 & ->)];
        [done|].
      right. rewrite (I2 m); [done| |done].
      rewrite U1. apply elem_of_app. by left.
Qed.

Lemma run_promise_inv fut c evs p :
  wf p -> promise_inv fut c p -> promise_inv fut c (run evs p).
Proof.
  revert p. induction evs as [|e evs IH]; intros p Hwf Hi; [done|].
  rewrite run_cons. apply IH; [by apply step_wf|by apply step_promise_inv].
Qed.

(** A future once fulfilled stays fulfilled. *)
Lemma step_promise_stays fut e p :
  wf p -> is_Some (promises p !! fut) -> is_Some (promises (step e p) !! fut).
Proof.
  intros Hwf Hs.
  destruct (step_view_of e p Hwf)
    as [H1 H2 H3 H4 H5 H6|m Hm Hpr H1 H2 H3 H4 H5 H6|c' d He H1 H2 H3 H4 H5 H6
       |c' Hc H1 H2 H3 H4 H5 H6|He Hl]; try (by rewrite H4).
  - rewrite H4. destruct (decide (nextPromise p = fut)) as [->|Hne].
    + by rewrite lookup_insert_eq.
    + by rewrite lookup_insert_ne.
  - destruct (loop_step_calls p _ Hl) as (ms & _ & _ & ->).
    destruct (set_value_lookup ms (promises p) fut) as [->|(m & _ & _ & ->)];
      done.
Qed.

Lemma run_promise_stays fut evs p :
  wf p -> is_Some (promises p !! fut) -> is_Some (promises (run evs p) !! fut).
Proof.
  revert p. induction evs as [|e evs IH]; intros p Hwf Hs; [done|].
  rewrite run_cons. apply IH; [by apply step_wf|by apply step_promise_stays].
Qed.

(** C8.  On a running, accepting thread a [sendSync] from a foreign thread
    queues the message and leaves the caller blocked on the future.  The
    future never holds anything but the value of the callable; the loop
    left alone fulfils it within six steps per pending message, and from
    then on [future.get()] yields exactly that value, whatever else
    happens.  On a thread never started [sendSync] throws the not-started
    error and the process is as before, nobody blocked. *)
Theorem sendSync_round_trip constructor evs0 caller c evs' caller' c' :
  let p := run evs0 (boot constructor) in
  let p' := run evs' (boot constructor) in
  isRunning (obj p) = true ->
  isAcceptingMessages (obj p) = true ->
  aborted p = false ->
  getIsSameThread (obj p) caller = false ->
  thread (obj p') = None ->
  (exists fut p1,
     sendSync caller c p = Returned fut p1 /\
     pending p1 = pending p ++ [CallableMessageWithPromise c fut] /\
     future_get fut p1 = None /\
     (forall evs, future_get fut (run evs p1) = None \/
                  future_get fut (run evs p1) = Some (result c)) /\
     (exists k, k <= 6 * length (pending p1) /\
                forall evs,
                  future_get fut (run evs (worker_run k p1)) = Some (result c))) /\
  sendSync caller' c' p' = Thrown NotStarted p'.
Proof.
  intros p p' Hrun Hacc Hab Hforeign Hth. split.
  - assert (Hwf : wf p) by apply run_wf, wf_boot.
    set (fut := nextPromise p).
    set (msg := CallableMessageWithPromise c fut).
    set (p1 := set_obj (set_messageQueue (messageQueue (obj p) ++ [msg])
                                         (obj (new_promise p).2))
                       (new_promise p).2).
    assert (Hsend : sendSync caller c p = Returned fut p1).
    { unfold sendSync, sendAsync, getIsRunning, getIsAcceptingMessages.
      rewrite Hrun, Hacc. simpl. by rewrite Hforeign. }
    assert (Hwf1 : wf p1).
    { pose proof (sendSync_wf caller c p Hwf) as H. by rewrite Hsend in H. }
    assert (Hpend : pending p1 = pending p ++ [msg]).
    { unfold pending. simpl. by rewrite <- app_assoc. }
    assert (Hnone : promises p !! fut = None).
    { destruct (promises p !! fut) eqn:E; [|done].
      pose proof (wf_promises p Hwf fut (mk_is_Some _ _ E)). unfold fut in *. lia. }
    assert (Hinv : promise_inv fut c p1).
    { split; [simpl; unfold fut; lia|]. split; [|by left].
      intros m. unfold uncalled. rewrite Hpend, <- app_assoc, !elem_of_app.
      intros [Hin|[Hin|Hin]] Hf.
      - pose proof (wf_fresh p Hwf m fut) as W. unfold fut in W.
        exfalso. apply (Nat.lt_irrefl (nextPromise p)). apply W; [|done].
        rewrite pipeline_uncalled. unfold uncalled. rewrite !elem_of_app. auto.
      - by apply list_elem_of_singleton in Hin as ->.
      - pose proof (wf_fresh p Hwf m fut) as W. unfold fut in W.
        exfalso. apply (Nat.lt_irrefl (nextPromise p)). apply W; [|done].
        rewrite pipeline_uncalled. unfold uncalled. rewrite !elem_of_app. auto. }
    exists fut, p1. split; [done|]. split; [done|]. split; [done|]. split.
    + intros evs. apply (run_promise_inv fut c evs p1 Hwf1 Hinv).
    + destruct (progress_prefix (pending p1) p1 [] Hwf1 Hab Hrun)
        as (k & extra & K1 & _ & K3 & _); [by rewrite app_nil_r|].
      exists k. split; [done|]. intros evs.
      assert (Hset : promises (worker_run k p1) !! fut = Some (result c)).
      { rewrite K3, Hpend, foldl_app. simpl. by rewrite lookup_insert_eq. }
      pose proof (worker_run_wf k p1 Hwf1) as Hwfk.
      pose proof (run_promise_inv fut c (replicate k EWorker) p1 Hwf1 Hinv) as Hik.
      fold (worker_run k p1) in Hik.
      destruct (run_promise_inv fut c evs _ Hwfk Hik) as (_ & _ & [E|E]); [|done].
      destruct (run_promise_stays fut evs _ Hwfk (mk_is_Some _ _ Hset)) as [v Hv].
      unfold future_get. congruence.
  - assert (Hwf : wf p') by apply run_wf, wf_boot.
    pose proof (wf_handle p' Hwf) as W3. rewrite Hth in W3.
    destruct W3 as [_ W3]. unfold sendSync, getIsRunning. by rewrite W3.
Qed.

Lemma sendSync_round_trip_witness :
  let p := run [EStart 7; ESend (Callable 9 0)] (boot 1) in
  let p' := run [ESend (Callable 9 0)] (boot 1) in
  (isRunning (obj p) = true /\ isAcceptingMessages (obj p) = true /\
   aborted p = false /\ getIsSameThread (obj p) 2 = false /\
   thread (obj p') = None) /\
  (exists fut p1,
     sendSync 2 (Callable 1 42) p = Returned fut p1 /\
     pending p1 = pending p ++ [CallableMessageWithPromise (Callable 1 42) fut] /\
     future_get fut p1 = None /\
     (forall evs, future_get fut (run evs p1) = None \/
                  future_get fut (run evs p1) = Some (result (Callable 1 42))) /\
     (exists k, k <= 6 * length (pending p1) /\
                forall evs,
                  future_get fut (run evs (worker_run k p1))
                  = Some (result (Callable 1 42)))) /\
  sendSync 3 (Callable 2 0) p' = Thrown NotStarted p'.
Proof.
  split; [repeat split|].
  exact (sendSync_round_trip 1 [EStart 7; ESend (Callable 9 0)] 2 (Callable 1 42)
           [ESend (Callable 9 0)] 3 (Callable 2 0)
           eq_refl eq_refl eq_refl eq_refl eq_refl).
Defined.

(** ** Delayed messages *)














(** [emplace] cuts the map in two around the key and puts the entry in
    between, or nothing if the key is taken. *)
Lemma map_emplace_split k m l :
  sorted_keys l ->
  exists a ins b,
    l = a ++ b /\ map_emplace k m l = a ++ ins ++ b /\
    (ins = [] \/ ins = [(k, m)]) /\
    Forall (fun e => (e.1 < k)%Z) a /\ Forall (fun e => (k <= e.1)%Z) b.
Proof.
  unfold sorted_keys. induction l as [|[k' m'] r IH]; intros Hs; simpl.
  - exists [], [(k, m)], []. repeat split; auto.
  - apply StronglySorted_inv in Hs as [Hr Hall].
    change (Forall (Z.lt k') (fst <$> r)) in Hall.
    destruct (k <? k')%Z eqn:Hlt.
    + apply Z.ltb_lt in Hlt.
      exists [], [(k, m)], ((k', m') :: r). repeat split; auto.
      constructor; [simpl; lia|].
      rewrite Forall_fmap in Hall. eapply Forall_impl; [exact Hall|].
      intros e He. unfold compose in He. lia.
    + destruct (k =? k')%Z eqn:Heq.
      * apply Z.eqb_eq in Heq. subst k'.
        exists [], [], ((k, m') :: r). repeat split; auto.
        constructor; [simpl; lia|].
        rewrite Forall_fmap in Hall. eapply Forall_impl; [exact Hall|].
        intros e He. unfold compose in He. lia.
      * apply Z.ltb_ge in Hlt. apply Z.eqb_neq in Heq.
        destruct (IH Hr) as (a & ins & b & H1 & H2 & H3 & H4 & H5).
        exists ((k', m') :: a), ins, b. simpl. rewrite H2, <- H1.
        repeat split; auto. constructor; [simpl; lia|done].
Qed.














(** ** Before [start] *)

Lemma step_keeps_unstarted e p :
  is_start e = false -> thread (obj p) = None ->
  thread (obj (step e p)) = None.
Proof.
  intros He Hth. unfold step. destruct (aborted p); [done|].
  destruct e; simpl; try done.
  - unfold stop. by rewrite Hth.
  - unfold join. by rewrite Hth.
  - unfold send. by destruct (getIsAcceptingMessages (obj p)).
  - unfold sendDelayed. by destruct (getIsAcceptingMessages (obj p)).
  - unfold sendAsync. destruct (getIsAcceptingMessages (obj p)); [|done].
    simpl. by destruct (getIsSameThread (obj p) caller).
  - unfold sendSync, sendAsync.
    destruct (negb (getIsRunning (obj p))); [done|].
    destruct (getIsAcceptingMessages (obj p)); [|done].
    simpl. by destruct (getIsSameThread (obj p) caller).
  - unfold sendWait, sendSync, sendAsync.
    destruct (negb (getIsRunning (obj p))); [done|].
    destruct (getIsAcceptingMessages (obj p)); [|done].
    simpl. by destruct (getIsSameThread (obj p) caller).
  - destruct (loop_step_frame p _ (worker_step_loop_step p)) as (_ & _ & -> & _).
    done.
Qed.

Lemma run_keeps_unstarted evs p :
  no_start evs = true -> thread (obj p) = None ->
  thread (obj (run evs p)) = None.
Proof.
  revert p. induction evs as [|e evs IH]; intros p Hns H; [done|].
  simpl in Hns. apply andb_true_iff in Hns as [He Hns].
  apply negb_true_iff in He. rewrite run_cons.
  by apply IH, step_keeps_unstarted.
Qed.

(** X1.  As long as [start] has not been called, whatever else has been
    done to the unit, [stop] throws the not-started error and leaves the
    process as it was, and [join] returns at once, changing nothing. *)
Theorem stop_and_join_before_start constructor evs :
  no_start evs = true ->
  let p := run evs (boot constructor) in
  stop p = Thrown NotStarted p /\ join p = Some p.
Proof.
  intros Hns p.
  assert (Hth : thread (obj p) = None) by by apply run_keeps_unstarted.
  unfold stop, join. by rewrite Hth.
Qed.

Lemma stop_and_join_before_start_witness :
  let evs := [ESend (Callable 1 0); ESendDelayed (Callable 2 0) 5; Tick 3;
              ESendAsync 4 (Callable 3 7); EWorker] in
  let p := run evs (boot 1) in
  no_start evs = true /\
  stop p = Thrown NotStarted p /\ join p = Some p.
Proof.
  split; [reflexivity|].
  apply (stop_and_join_before_start 1
           [ESend (Callable 1 0); ESendDelayed (Callable 2 0) 5; Tick 3;
            ESendAsync 4 (Callable 3 7); EWorker]).
  reflexivity.
Defined.

(** X2.  Admission never reopens: once [isAcceptingMessages] is false it
    is false after every schedule, a later [start] included. *)
Theorem admission_never_reopens p evs :
  isAcceptingMessages (obj p) = false ->
  isAcceptingMessages (obj (run evs p)) = false.
Proof. apply run_keeps_closed. Qed.

Lemma admission_never_reopens_witness :
  let p := run [EStart 7; EStop; EWorker; EWorker; EJoin] (boot 1) in
  isAcceptingMessages (obj p) = false /\
  isAcceptingMessages (obj (run [EStart 8; ESend (Callable 1 0); EWorker] p)) = false.
Proof.
  split; [reflexivity|].
  apply (admission_never_reopens
           (run [EStart 7; EStop; EWorker; EWorker; EJoin] (boot 1))
           [EStart 8; ESend (Callable 1 0); EWorker]).
  reflexivity.
Defined.

(** ** Joining *)

(** X3.  With a joinable thread, [join] keeps the caller blocked until the
    loop has exited.  Then it returns; the handle names no thread any
    more, so no caller passes for the same thread and the unit differs
    from every thread's identity; a second [join] does nothing. *)
Theorem join_waits_for_exit p h caller :
  thread (obj p) = Some h -> joinable h = true ->
  (worker p <> Exited -> join p = None) /\
  (worker p = Exited ->
   exists q,
     join p = Some q /\
     getId (obj q) caller = NoThread /\
     getIsSameThread (obj q) caller = false /\
     operator_ne_id (obj q) (this_thread_get_id caller) caller = true /\
     messageQueue (obj q) = messageQueue (obj p) /\
     join q = Some q).
Proof.
  intros Hth Hj. unfold join. rewrite Hth, Hj. split.
  - intros Hw. by rewrite bool_decide_eq_false_2.
  - intros Hw. rewrite bool_decide_eq_true_2 by done.
    eexists. split; [reflexivity|]. repeat split.
Qed.

Lemma join_waits_for_exit_witness :
  let p := run [EStart 7; ESend (Callable 1 0); EStop; EWorker; EWorker] (boot 1) in
  (thread (obj p) = Some (StdThread 7 true) /\ joinable (StdThread 7 true) = true) /\
  worker p = Exited /\
  exists q,
    join p = Some q /\
    getId (obj q) 7 = NoThread /\
    getIsSameThread (obj q) 7 = false /\
    operator_ne_id (obj q) (this_thread_get_id 7) 7 = true /\
    messageQueue (obj q) = messageQueue (obj p) /\
    join q = Some q.
Proof.
  split; [split; reflexivity|]. split; [reflexivity|].
  apply (proj2 (join_waits_for_exit
                  (run [EStart 7; ESend (Callable 1 0); EStop; EWorker; EWorker]
                       (boot 1))
                  (StdThread 7 true) 7 eq_refl eq_refl)).
  reflexivity.
Defined.

(** ** The delayed queue and its promotion *)

Lemma sorted_keys_NoDup dq : sorted_keys dq -> NoDup (fst <$> dq).
Proof.
  unfold sorted_keys. induction dq as [|[k m] r IH]; intros Hs.
  - constructor.
  - apply StronglySorted_inv in Hs as [Hr Hall].
    change (Forall (Z.lt k) (fst <$> r)) in Hall.
    rewrite fmap_cons. constructor; [|by apply IH].
    intros Hin. rewrite Forall_forall in Hall. specialize (Hall _ Hin).
    simpl in Hall. lia.
Qed.

(** X4.  In every process a schedule can reach, the keys of the delayed
    queue are strictly increasing: entries stand in deadline order and no
    two of them share a deadline. *)
Theorem delayed_queue_keys_increasing p :
  reachable p ->
  StronglySorted Z.lt (fst <$> delayedQueue (obj p)) /\
  NoDup (fst <$> delayedQueue (obj p)).
Proof.
  intros Hr. pose proof (wf_sorted p (reachable_wf p Hr)) as Hs.
  split; [exact Hs|by apply sorted_keys_NoDup].
Qed.

Lemma delayed_queue_keys_increasing_witness :
  let p := run [ESendDelayed (Callable 1 0) 9; ESendDelayed (Callable 2 0) 4;
                Tick 1; ESendDelayed (Callable 3 0) 3;
                ESendDelayed (Callable 4 0) 6] (boot 1) in
  reachable p /\
  fst <$> delayedQueue (obj p) = [4; 7; 9]%Z /\
  NoDup (fst <$> delayedQueue (obj p)).
Proof.
  assert (Hr : reachable
            (run [ESendDelayed (Callable 1 0) 9; ESendDelayed (Callable 2 0) 4;
                  Tick 1; ESendDelayed (Callable 3 0) 3;
                  ESendDelayed (Callable 4 0) 6] (boot 1)))
    by (exists 1; eexists; reflexivity).
  split; [exact Hr|]. split; [reflexivity|].
  exact (proj2 (delayed_queue_keys_increasing _ Hr)).
Defined.

Lemma nothing_due t dq :
  Forall (fun e => (t <= e.1)%Z) dq -> due t dq = [] /\ not_due t dq = dq.
Proof.
  unfold due, not_due. induction dq as [|e r IH]; intros H; [done|].
  apply Forall_cons in H as [He Hr]. destruct (IH Hr) as [I1 I2].
  rewrite filter_cons_False by lia. rewrite filter_cons_True by lia.
  by rewrite I1, I2.
Qed.

Lemma promote_sorted timeNow dq mq :
  sorted_keys dq ->
  promote timeNow dq mq =
    (not_due timeNow dq, mq ++ (snd <$> due timeNow dq),
     bool_decide (due timeNow dq <> [])).
Proof.
  unfold sorted_keys. revert mq.
  induction dq as [|[k m] r IH]; intros mq Hs; simpl.
  - by rewrite app_nil_r.
  - apply StronglySorted_inv in Hs as [Hr Hall].
    change (Forall (Z.lt k) (fst <$> r)) in Hall.
    destruct (k <? timeNow)%Z eqn:Hlt.
    + apply Z.ltb_lt in Hlt. rewrite (IH _ Hr). unfold due, not_due.
      rewrite (filter_cons_True (fun e => (e.1 < timeNow)%Z)) by done.
      rewrite (filter_cons_False (fun e => ~ (e.1 < timeNow)%Z))
        by (simpl; lia).
      simpl. by rewrite <- app_assoc.
    + apply Z.ltb_ge in Hlt.
      destruct (nothing_due timeNow ((k, m) :: r)) as [-> ->].
      * constructor; [done|]. rewrite Forall_fmap in Hall.
        eapply Forall_impl; [exact Hall|].
        intros e He. unfold compose in He. lia.
      * by rewrite app_nil_r.
Qed.

(** X5.  On a delayed queue in deadline order the [for] loop of the run
    loop moves exactly the entries whose deadline is before [timeNow] to
    the back of the message queue, in deadline order, and leaves exactly
    the others; an entry whose deadline equals [timeNow] stays.  [hasNew]
    tells whether anything was moved. *)
Theorem promote_moves_exactly_the_due timeNow dq mq :
  sorted_keys dq ->
  promote timeNow dq mq =
    (not_due timeNow dq, mq ++ (snd <$> due timeNow dq),
     bool_decide (due timeNow dq <> [])).
Proof. apply promote_sorted. Qed.

Lemma promote_moves_exactly_the_due_witness :
  let a := CallableMessage (Callable 1 0) in
  let b := CallableMessage (Callable 2 0) in
  let c := CallableMessage (Callable 3 0) in
  let z := CallableMessage (Callable 9 0) in
  sorted_keys [(3%Z, a); (5%Z, b); (8%Z, c)] /\
  promote 5 [(3%Z, a); (5%Z, b); (8%Z, c)] [z] =
    ([(5%Z, b); (8%Z, c)], [z; a], true).
Proof.
  assert (Hs : sorted_keys [(3%Z, CallableMessage (Callable 1 0));
                            (5%Z, CallableMessage (Callable 2 0));
                            (8%Z, CallableMessage (Callable 3 0))]).
  { unfold sorted_keys. simpl.
    repeat (constructor; [|repeat (constructor; [lia|]); constructor]).
    constructor. }
  split; [exact Hs|].
  rewrite (promote_moves_exactly_the_due 5 _
             [CallableMessage (Callable 9 0)] Hs).
  reflexivity.
Defined.

(** X6.  The loop holds the lock, the delayed queue is not empty and its
    first deadline is not before the time the loop read: nothing is
    promoted, and the loop goes to wait until that first deadline, leaving
    both queues alone, whether or not the message queue holds messages.
    On return from the wait it takes the front of the message queue
    without looking at the delayed queue again. *)
Theorem loop_waits_for_first_deadline p timeNow k m r :
  worker p = Lock timeNow \/ worker p = Wait timeNow ->
  delayedQueue (obj p) = (k, m) :: r ->
  (timeNow <= k)%Z ->
  worker_step p = set_worker (WaitUntil timeNow k) p /\
  worker_step (worker_step p) = takeNext p.
Proof.
  intros Hw Hdq Hk.
  assert (Haw : afterWait timeNow p = set_worker (WaitUntil timeNow k) p).
  { unfold afterWait. rewrite Hdq. simpl.
    destruct (k <? timeNow)%Z eqn:E; [apply Z.ltb_lt in E; lia|].
    cbn [lower_bound].
    destruct (timeNow <=? k)%Z eqn:E'; [|apply Z.leb_gt in E'; lia].
    rewrite <- Hdq. by open_process p. }
  assert (H1 : worker_step p = set_worker (WaitUntil timeNow k) p).
  { unfold worker_step. destruct Hw as [-> | ->]; [|exact Haw].
    rewrite Hdq. rewrite (bool_decide_eq_false_2 (_ :: _ = [])) by done.
    by rewrite andb_false_r. }
  split; [exact H1|]. rewrite H1. unfold worker_step. simpl.
  unfold takeNext. simpl. by destruct (messageQueue (obj p)).
Qed.

Lemma loop_waits_for_first_deadline_witness :
  let p := run [EStart 7; EWorker; EWorker; ESendDelayed (Callable 2 0) 60;
                ESend (Callable 1 0)] (boot 1) in
  (worker p = Lock 0 \/ worker p = Wait 0) /\
  delayedQueue (obj p) = [(60%Z, CallableMessage (Callable 2 0))] /\
  messageQueue (obj p) = [CallableMessage (Callable 1 0)] /\
  worker_step p = set_worker (WaitUntil 0 60) p /\
  worker_step (worker_step p) = takeNext p.
Proof.
  split; [left; reflexivity|]. split; [reflexivity|]. split; [reflexivity|].
  apply (loop_waits_for_first_deadline
           (run [EStart 7; EWorker; EWorker; ESendDelayed (Callable 2 0) 60;
                 ESend (Callable 1 0)] (boot 1))
           0%Z 60%Z (CallableMessage (Callable 2 0)) []);
    [left; reflexivity|reflexivity|discriminate].
Defined.

(** ** Identity and comparison *)

(** X7.  Two units neither of which has a thread yet compare equal,
    whichever they are, and each compares equal to the identity of the
    thread that asks. *)
Theorem units_without_thread_compare_equal t other caller :
  thread t = None -> thread other = None ->
  operator_eq t other caller = true /\
  operator_ne t other caller = false /\
  operator_eq_id t (this_thread_get_id caller) caller = true /\
  operator_ne_id t (this_thread_get_id caller) caller = false.
Proof.
  intros H1 H2.
  unfold operator_ne, operator_ne_id, operator_eq, operator_eq_id, getId.
  rewrite H1, H2. by rewrite !bool_decide_eq_true_2.
Qed.

Lemma units_without_thread_compare_equal_witness :
  let t := obj (run [ESend (Callable 1 0)] (boot 1)) in
  let other := Thread_ctor 2 in
  (thread t = None /\ thread other = None) /\
  operator_eq t other 3 = true /\
  operator_ne t other 3 = false /\
  operator_eq_id t (this_thread_get_id 3) 3 = true /\
  operator_ne_id t (this_thread_get_id 3) 3 = false.
Proof.
  split; [split; reflexivity|].
  apply (units_without_thread_compare_equal
           (obj (run [ESend (Callable 1 0)] (boot 1))) (Thread_ctor 2) 3);
    reflexivity.
Defined.



(** ** Stopping *)

(** X9.  Stopping is idempotent: after a [stop] that returned, another
    [stop] returns too and changes nothing, and neither does the flag
    clearing of the destructor. *)
Theorem stop_is_idempotent p p' :
  stop p = Returned tt p' ->
  stop p' = Returned tt p' /\ Thread_dtor_signal p' = p'.
Proof.
  unfold stop, Thread_dtor_signal.
  destruct (thread (obj p)) as [h|] eqn:Hth; [|done].
  intros [= <-]. simpl. rewrite Hth. by open_process p.
Qed.

Lemma stop_is_idempotent_witness :
  let p := run [EStart 7; ESend (Callable 1 0)] (boot 1) in
  let p' := run [EStart 7; ESend (Callable 1 0); EStop] (boot 1) in
  stop p = Returned tt p' /\
  stop p' = Returned tt p' /\ Thread_dtor_signal p' = p'.
Proof.
  split; [reflexivity|].
  apply (stop_is_idempotent (run [EStart 7; ESend (Callable 1 0)] (boot 1))).
  reflexivity.
Defined.

(** ** Blocking sends from the thread itself *)

(** X10.  On a running, accepting unit a [sendSync] or [sendWait] made by
    the thread [getId] names does not wait: the callable is called in
    place, the future holds its value on return, and nothing is queued. *)
Theorem sendSync_same_thread_does_not_wait p caller c :
  isRunning (obj p) = true ->
  isAcceptingMessages (obj p) = true ->
  getIsSameThread (obj p) caller = true ->
  exists q,
    sendSync caller c p = Returned (nextPromise p) q /\
    sendWait caller c p = Returned (nextPromise p) q /\
    future_get (nextPromise p) q = Some (result c) /\
    calls q = calls p ++
              [CallRecord (CallableMessageWithPromise c (nextPromise p))
                          (now p) true] /\
    messageQueue (obj q) = messageQueue (obj p) /\
    delayedQueue (obj q) = delayedQueue (obj p) /\
    worker q = worker p.
Proof.
  intros Hrun Hacc Hsame.
  unfold sendWait, sendSync, sendAsync, getIsRunning, getIsAcceptingMessages.
  rewrite Hrun, Hacc. simpl. rewrite Hsame.
  eexists. split; [reflexivity|]. split; [reflexivity|].
  unfold future_get. simpl. rewrite lookup_insert_eq. repeat split.
Qed.

Lemma sendSync_same_thread_does_not_wait_witness :
  let p := run [EStart 7; ESend (Callable 1 0); EWorker; EWorker; EWorker]
               (boot 1) in
  (isRunning (obj p) = true /\ isAcceptingMessages (obj p) = true /\
   getIsSameThread (obj p) 7 = true) /\
  exists q,
    sendSync 7 (Callable 2 42) p = Returned (nextPromise p) q /\
    sendWait 7 (Callable 2 42) p = Returned (nextPromise p) q /\
    future_get (nextPromise p) q = Some (result (Callable 2 42)) /\
    calls q = calls p ++
              [CallRecord (CallableMessageWithPromise (Callable 2 42) (nextPromise p))
                          (now p) true] /\
    messageQueue (obj q) = messageQueue (obj p) /\
    delayedQueue (obj q) = delayedQueue (obj p) /\
    worker q = worker p.
Proof.
  split; [repeat split|].
  apply (sendSync_same_thread_does_not_wait
           (run [EStart 7; ESend (Callable 1 0); EWorker; EWorker; EWorker]
                (boot 1)) 7 (Callable 2 42)); reflexivity.
Defined.

(** ** [ThisThread] *)



Lemma called_loop_records t (ms : list Message) :
  called <$> ((fun m => CallRecord m t false) <$> ms) = ms.
Proof. induction ms as [|m ms IH]; [done|]. simpl. by f_equal. Qed.

(** X12.  Callables are sent to a [ThisThread] whose loop has not been
    entered; [stop] returns (it never throws) and closes admission; a
    [start] made afterwards finds the running flag clear, calls the
    callables sent, in the order sent, and returns: two steps of the loop,
    and the loop is over with the message queue empty. *)
Theorem ThisThread_start_after_stop_drains constructor cs :
  let p := run (ESend <$> cs) (this_boot constructor) in
  exists p' p'',
    ThisThread_stop p = Returned tt p' /\
    isAcceptingMessages (obj p') = false /\
    ThisThread_start p' = Some p'' /\
    worker (worker_run 2 p'') = Exited /\
    called <$> calls (worker_run 2 p'') = CallableMessage <$> cs /\
    messageQueue (obj (worker_run 2 p'')) = [].
Proof.
  intros p.
  destruct (sends_spec cs (this_boot constructor) eq_refl eq_refl)
    as (S1 & S2 & S3 & S4 & S5). fold p in S1, S2, S3, S4, S5.
  assert (Hw : worker p = NotSpawned).
  { unfold p. clear. generalize (this_boot constructor) (eq_refl : worker (this_boot constructor) = NotSpawned).
    induction cs as [|c cs IH]; intros q Hq; [done|].
    rewrite fmap_cons, run_cons. apply IH. unfold step, send.
    destruct (aborted q); [done|].
    by destruct (getIsAcceptingMessages (obj q)). }
  assert (Hmq : messageQueue (obj p) = CallableMessage <$> cs).
  { unfold pending in S1. by rewrite Hw in S1. }
  set (p' := set_obj (setIsRunning false
                        (setIsAcceptingMessages false (obj p))) p).
  set (p'' := set_worker LoopHead p').
  set (r := set_worker RunLeftovers p'').
  assert (E1 : step EWorker p'' = r)
    by (rewrite step_worker_live by exact S4; reflexivity).
  assert (E2 : step EWorker r = set_worker Exited (runLeftovers r))
    by (rewrite step_worker_live by exact S4; reflexivity).
  exists p', p''. split; [reflexivity|]. split; [reflexivity|].
  split; [unfold ThisThread_start; simpl; by rewrite Hw|].
  change (worker_run 2 p'') with (step EWorker (step EWorker p'')).
  rewrite E1, E2. split; [reflexivity|]. split; [|reflexivity].
  destruct (runLeftovers_loop_spec (messageQueue (obj r)) r)
    as (_ & _ & _ & _ & _ & _ & H7 & _).
  unfold runLeftovers. simpl in *. rewrite H7, S2, Hmq. simpl.
  by rewrite called_loop_records.
Qed.

(** ** Sending before [start] *)

Lemma step_unstarted_queue_calls e p :
  wf p -> is_start e = false -> thread (obj p) = None ->
  queue_calls (step e p) = queue_calls p.
Proof.
  intros Hwf He Hth.
  pose proof (wf_handle p Hwf) as W3. rewrite Hth in W3. destruct W3 as [Hw _].
  destruct (step_view_of e p Hwf)
    as [H1 H2 H3 H4 H5 H6|m Hm Hpr H1 H2 H3 H4 H5 H6|c d Hd H1 H2 H3 H4 H5 H6
       |c Hc H1 H2 H3 H4 H5 H6|Hev Hs];
    try (unfold queue_calls; by rewrite H1).
  - unfold queue_calls. rewrite H1, filter_queue_app. simpl.
    rewrite filter_cons_False by done. by rewrite app_nil_r.
  - subst e. unfold step. destruct (aborted p); [done|].
    unfold worker_step. by rewrite Hw.
Qed.

(** X13.  Until [start] is called the loop does not exist: whatever is
    sent, no message is called from a queue; the only calls in the log are
    those [sendAsync] made in place. *)
Theorem nothing_called_from_queue_before_start constructor evs :
  no_start evs = true ->
  let p := run evs (boot constructor) in
  worker p = NotSpawned /\
  queue_calls p = [] /\
  Forall (fun r => in_place r = true) (calls p).
Proof.
  intros Hns p.
  assert (H : forall q, wf q -> thread (obj q) = None -> queue_calls q = [] ->
                        wf (run evs q) /\ thread (obj (run evs q)) = None /\
                        queue_calls (run evs q) = []).
  { clear p. induction evs as [|e evs IH]; intros q Hwf Hth Hq; [done|].
    simpl in Hns. apply andb_true_iff in Hns as [He Hns].
    apply negb_true_iff in He. rewrite run_cons.
    apply IH; [done|by apply step_wf|by apply step_keeps_unstarted|].
    by rewrite step_unstarted_queue_calls. }
  destruct (H (boot constructor) (wf_boot constructor) eq_refl eq_refl)
    as (Hwf & Hth & Hq). fold p in Hwf, Hth, Hq.
  pose proof (wf_handle p Hwf) as W3. rewrite Hth in W3.
  split; [by destruct W3|]. split; [exact Hq|].
  unfold queue_calls in Hq. apply fmap_nil_inv in Hq.
  apply Forall_forall. intros r Hin.
  destruct (in_place r) eqn:E; [done|].
  assert (Hf : r ∈ filter (fun r => in_place r = false) (calls p))
    by (apply list_elem_of_filter; by split).
  rewrite Hq in Hf. by apply elem_of_nil in Hf.
Qed.

Lemma nothing_called_from_queue_before_start_witness :
  let evs := [ESend (Callable 1 0); ESendAsync 4 (Callable 2 7); EWorker;
              Tick 3; ESendDelayed (Callable 3 0) 1; Tick 5; EWorker] in
  let p := run evs (boot 1) in
  no_start evs = true /\
  worker p = NotSpawned /\
  queue_calls p = [] /\
  Forall (fun r => in_place r = true) (calls p).
Proof.
  split; [reflexivity|].
  apply (nothing_called_from_queue_before_start 1
           [ESend (Callable 1 0); ESendAsync 4 (Callable 2 7); EWorker;
            Tick 3; ESendDelayed (Callable 3 0) 1; Tick 5; EWorker]).
  reflexivity.
Defined.

(** X14.  Callables sent before [start] are kept: [start] then returns,
    and the loop, left alone, calls them in the order sent, within six
    steps for each, and nothing else. *)
Theorem sends_before_start_run_after constructor cs newTid :
  let p := run (ESend <$> cs) (boot constructor) in
  exists q k,
    start newTid p = Returned tt q /\
    k <= 6 * length cs /\
    called <$> calls (worker_run k q) = CallableMessage <$> cs /\
    Forall (fun r => in_place r = false) (calls (worker_run k q)).
Proof.
  intros p.
  destruct (sends_spec cs (boot constructor) eq_refl eq_refl)
    as (S1 & S2 & S3 & S4 & S5). fold p in S1, S2, S3, S4, S5.
  assert (Hns : no_start (ESend <$> cs) = true)
    by (clear; induction cs as [|c cs IH]; [done|]; simpl; exact IH).
  assert (Hth : thread (obj p) = None) by by apply run_keeps_unstarted.
  assert (Hwf : wf p) by apply run_wf, wf_boot.
  pose proof (wf_handle p Hwf) as W3. rewrite Hth in W3. destruct W3 as [Hw _].
  assert (Hmq : messageQueue (obj p) = CallableMessage <$> cs)
    by (unfold pending in S1; by rewrite Hw in S1).
  pose proof (start_wf newTid p Hwf) as Hwfq.
  unfold start, getIsRunning in *. simpl in S5. rewrite S5 in *.
  simpl in *. rewrite Hth in *. simpl in *.
  match type of Hwfq with wf ?x => set (q := x) in * end.
  destruct (progress_prefix (pending q) q [] Hwfq S4 eq_refl)
    as (k & extra & K1 & K2 & _ & _); [by rewrite app_nil_r|].
  assert (Hpq : pending q = CallableMessage <$> cs)
    by (unfold pending; simpl; exact Hmq).
  exists q, k. split; [reflexivity|].
  rewrite Hpq, length_fmap in K1. split; [exact K1|].
  rewrite K2, Hpq. simpl. rewrite S2. simpl.
  split; [by rewrite called_loop_records|].
  apply Forall_fmap. by apply Forall_true.
Qed.

(** ** An idle loop *)

Lemma worker_run_calls k p :
  exists ms,
    calls (worker_run k p) =
      calls p ++ ((fun m => CallRecord m (now p) false) <$> ms) /\
    promises (worker_run k p) =
      foldl (fun sh m => set_value m sh) (promises p) ms.
Proof.
  revert p. induction k as [|k IH]; intros p.
  - exists []. simpl. by rewrite app_nil_r.
  - rewrite worker_run_S.
    assert (H1 : exists ms,
               calls (step EWorker p) =
                 calls p ++ ((fun m => CallRecord m (now p) false) <$> ms) /\
               promises (step EWorker p) =
                 foldl (fun sh m => set_value m sh) (promises p) ms /\
               now (step EWorker p) = now p).
    { unfold step. destruct (aborted p).
      - exists []. simpl. by rewrite app_nil_r.
      - destruct (loop_step_calls p _ (worker_step_loop_step p))
          as (ms & _ & C1 & C2).
        destruct (loop_step_frame p _ (worker_step_loop_step p))
          as (_ & _ & _ & F4 & _).
        by exists ms. }
    destruct H1 as (ms1 & A1 & A2 & A3).
    destruct (IH (step EWorker p)) as (ms2 & B1 & B2).
    exists (ms1 ++ ms2). rewrite B1, B2, A1, A2, A3.
    by rewrite fmap_app, foldl_app, <- app_assoc.
Qed.

(** X15.  With nothing taken, the message queue empty and no deadline
    passed, the loop may take any number of steps: it makes no call,
    fulfils no future and leaves the delayed queue as it is. *)
Theorem idle_loop_calls_nothing p k :
  reachable p ->
  pending p = [] ->
  Forall (fun e => (now p <= e.1)%Z) (delayedQueue (obj p)) ->
  calls (worker_run k p) = calls p /\
  promises (worker_run k p) = promises p /\
  delayedQueue (obj (worker_run k p)) = delayedQueue (obj p) /\
  pending (worker_run k p) = [].
Proof.
  intros Hr Hpend Hdq. pose proof (reachable_wf p Hr) as Hwf.
  destruct (worker_run_moves k p Hwf) as (moved & M1 & M2 & M3).
  assert (Hmoved : moved = []).
  { destruct moved as [|e moved]; [done|]. exfalso.
    apply Forall_cons in M3 as [M3 _]. rewrite M1 in Hdq.
    apply Forall_cons in Hdq as [Hdq _]. lia. }
  subst moved. simpl in M1, M2. rewrite app_nil_r in M2.
  destruct (worker_run_calls k p) as (ms & C1 & C2).
  pose proof (queue_calls_loop_records p _ _ _ C1) as Hq.
  unfold front in M2. rewrite Hq, Hpend, app_nil_r, <- app_assoc in M2.
  rewrite <- (app_nil_r (queue_calls p)) in M2 at 2.
  apply app_inv_head in M2. apply app_eq_nil in M2 as [-> Hp].
  simpl in C1, C2. rewrite app_nil_r in C1. by rewrite C1, C2, <- M1.
Qed.

Lemma idle_loop_calls_nothing_witness :
  let p := run [EStart 7; ESendDelayed (Callable 1 0) 50; Tick 10; EWorker]
               (boot 1) in
  (reachable p /\ pending p = [] /\
   Forall (fun e => (now p <= e.1)%Z) (delayedQueue (obj p))) /\
  calls (worker_run 40 p) = calls p /\
  promises (worker_run 40 p) = promises p /\
  delayedQueue (obj (worker_run 40 p)) = delayedQueue (obj p) /\
  pending (worker_run 40 p) = [].
Proof.
  assert (Hr : reachable
            (run [EStart 7; ESendDelayed (Callable 1 0) 50; Tick 10; EWorker]
                 (boot 1)))
    by (exists 1; eexists; reflexivity).
  assert (Hd : Forall (fun e => (now (run [EStart 7; ESendDelayed (Callable 1 0) 50;
                                            Tick 10; EWorker] (boot 1)) <= e.1)%Z)
                      (delayedQueue
                         (obj (run [EStart 7; ESendDelayed (Callable 1 0) 50;
                                    Tick 10; EWorker] (boot 1)))))
    by (repeat constructor; discriminate).
  split; [by repeat split|].
  exact (idle_loop_calls_nothing _ 40 Hr eq_refl Hd).
Defined.

(** ** Futures and shutdown *)

Lemma in_place_pending p q r :
  calls q = calls p ++ [r] -> in_place r = true -> front q = front p ->
  pending q = pending p.
Proof.
  intros Hc Hr Hf. unfold front in Hf.
  assert (Hq : queue_calls q = queue_calls p).
  { unfold queue_calls. rewrite Hc, filter_queue_app.
    rewrite filter_cons_False by (rewrite Hr; done).
    by rewrite app_nil_r. }
  rewrite Hq in Hf. by apply app_inv_head in Hf.
Qed.








(** ** Promises are set once *)

Lemma step_unfulfilled e p : wf p -> unfulfilled p -> unfulfilled (step e p).
Proof.
  intros Hwf [U1 U2].
  assert (Hold : forall m pr, m ∈ uncalled p -> promise_of m = Some pr ->
                              pr < nextPromise p).
  { intros m pr Hin. apply (wf_fresh p Hwf).
    rewrite pipeline_uncalled. apply elem_of_app. by right. }
  destruct (step_view_of e p Hwf)
    as [H1 H2 H3 H4 H5 H6|m Hm Hpr H1 H2 H3 H4 H5 H6|c' d He H1 H2 H3 H4 H5 H6
       |c' Hc H1 H2 H3 H4 H5 H6|He Hs].
  - assert (Hp : pending (step e p) = pending p)
      by (rewrite (pending_of_views p _ [] H1); by rewrite ?app_nil_r).
    unfold unfulfilled, uncalled. by rewrite Hp, H3, H4.
  - pose proof (pending_of_views p _ [m] H1 H2) as Hp.
    assert (Hperm : uncalled (step e p) ≡ₚ m :: uncalled p).
    { unfold uncalled. rewrite Hp, H3, <- app_assoc. simpl.
      by rewrite <- Permutation_middle. }
    split.
    + rewrite Hperm. simpl. destruct (promise_of m) as [pr|] eqn:Em; [|done].
      apply NoDup_cons. split; [|done].
      intros [m' [Hin Hm']]%list_elem_of_omap.
      specialize (Hold m' pr Hin Hm'). specialize (Hpr pr eq_refl). lia.
    + intros m' pr Hin Hm'. rewrite H4. rewrite Hperm in Hin.
      apply elem_of_cons in Hin as [->|Hin]; [|eauto].
      specialize (Hpr pr Hm'). subst pr.
      destruct (promises p !! nextPromise p) eqn:E; [|done].
      pose proof (wf_promises p Hwf _ (mk_is_Some _ _ E)). lia.
  - assert (Hp : pending (step e p) = pending p)
      by (rewrite (pending_of_views p _ [] H1); by rewrite ?app_nil_r).
    destruct (map_emplace_split (now p + d)%Z (CallableMessage c')
                (delayedQueue (obj p)) (wf_sorted p Hwf))
      as (a & ins & b & E1 & E2 & E3 & _).
    assert (Hins : omap promise_of (snd <$> ins) = [])
      by (destruct E3 as [->| ->]; done).
    split.
    + unfold uncalled in *. rewrite Hp, H3, E2, !fmap_app, !omap_app, Hins.
      simpl. by rewrite E1, fmap_app, !omap_app in U1.
    + intros m pr Hin Hm. rewrite H4. apply (U2 m); [|done].
      unfold uncalled in *. rewrite Hp, H3, E2 in Hin. rewrite E1.
      rewrite !fmap_app, !elem_of_app in Hin. rewrite !fmap_app, !elem_of_app.
      destruct Hin as [?|[?|[Hin|?]]]; auto.
      destruct E3 as [->| ->]; [by apply elem_of_nil in Hin|].
      apply list_elem_of_singleton in Hin. by subst m.
  - assert (Hp : pending (step e p) = pending p)
      by (by rewrite (in_place_pending p _ _ H1 eq_refl H2)).
    unfold unfulfilled, uncalled in *. rewrite Hp, H3, H4.
    split; [done|]. intros m pr Hin Hm.
    specialize (Hold m pr Hin Hm). rewrite lookup_insert_ne by lia. eauto.
  - destruct (loop_step_uncalled p _ Hwf Hs) as (ms & V1 & V2).
    rewrite V1, omap_app in U1. apply NoDup_app in U1 as (_ & Hdisj & U1).
    split; [done|]. intros m pr Hin Hm. rewrite V2.
    destruct (set_value_lookup ms (promises p) pr) as [->|(m' & M1 & M2 & _)].
    + apply (U2 m); [|done]. rewrite V1. apply elem_of_app. by right.
    + exfalso. apply (Hdisj pr).
      * apply list_elem_of_omap. by exists m'.
      * apply list_elem_of_omap. by exists m.
Qed.

(** X17.  No promise is ever set twice.  In every process a schedule can
    reach, the messages still to be called carry promises that are all
    different and all without a value, and the promise [sendAsync] would
    make next is without a value too: [set_value] always finds its shared
    state empty. *)
Theorem promises_are_set_once p :
  reachable p ->
  NoDup (omap promise_of (uncalled p)) /\
  (forall m pr, m ∈ uncalled p -> promise_of m = Some pr ->
                future_get pr p = None) /\
  future_get (nextPromise p) p = None.
Proof.
  intros Hr. pose proof (reachable_wf p Hr) as Hwf.
  assert (Hu : unfulfilled p).
  { destruct Hr as (constructor & evs & ->).
    assert (H : forall q, wf q -> unfulfilled q -> unfulfilled (run evs q)).
    { clear. induction evs as [|e evs IH]; intros q Hwf Hu; [done|].
      rewrite run_cons. apply IH; [by apply step_wf|by apply step_unfulfilled]. }
    apply H; [apply wf_boot|]. split; [constructor|].
    by intros m pr ?%elem_of_nil. }
  destruct Hu as [U1 U2]. split; [done|]. split; [exact U2|].
  unfold future_get. destruct (promises p !! nextPromise p) eqn:E; [|done].
  pose proof (wf_promises p Hwf _ (mk_is_Some _ _ E)). lia.
Qed.

Lemma promises_are_set_once_witness :
  let p := run [EStart 7; ESendAsync 2 (Callable 1 10); ESendAsync 3 (Callable 2 20);
                ESendAsync 7 (Callable 3 30); EWorker; EWorker; EWorker]
               (boot 1) in
  reachable p /\
  omap promise_of (uncalled p) = [0; 1] /\
  NoDup (omap promise_of (uncalled p)) /\
  future_get (nextPromise p) p = None.
Proof.
  assert (Hr : reachable
            (run [EStart 7; ESendAsync 2 (Callable 1 10);
                  ESendAsync 3 (Callable 2 20); ESendAsync 7 (Callable 3 30);
                  EWorker; EWorker; EWorker] (boot 1)))
    by (exists 1; eexists; reflexivity).
  pose proof (promises_are_set_once _ Hr) as (H1 & _ & H3).
  split; [exact Hr|]. split; [reflexivity|]. split; [exact H1|exact H3].
Defined.

(** ** A unit destroyed without [start] *)

(** X18.  A unit that was never started and is destroyed runs nothing of
    what was sent to it: the destructor clears the flags, its [join]
    returns at once, there is no loop to take a step, and the messages are
    still in the queues when the object goes. *)
Theorem destroyed_unstarted_unit_runs_nothing constructor evs k :
  no_start evs = true ->
  let p := run evs (boot constructor) in
  let q := Thread_dtor_signal p in
  join q = Some q /\
  worker_run k q = q /\
  messageQueue (obj q) = messageQueue (obj p) /\
  delayedQueue (obj q) = delayedQueue (obj p) /\
  queue_calls q = [].
Proof.
  intros Hns p q.
  assert (Hth : thread (obj p) = None) by by apply run_keeps_unstarted.
  assert (Hwf : wf p) by apply run_wf, wf_boot.
  pose proof (wf_handle p Hwf) as W3. rewrite Hth in W3. destruct W3 as [Hw _].
  assert (Hq : queue_calls p = []).
  { assert (H : forall s, wf s -> thread (obj s) = None -> queue_calls s = [] ->
                          queue_calls (run evs s) = []).
    { clear -Hns. induction evs as [|e evs IH]; intros s Hwf Hth Hq; [done|].
      simpl in Hns. apply andb_true_iff in Hns as [He Hns].
      apply negb_true_iff in He. rewrite run_cons.
      apply IH; [done|by apply step_wf|by apply step_keeps_unstarted|].
      by rewrite step_unstarted_queue_calls. }
    by apply H; [apply wf_boot|..]. }
  split; [unfold join; simpl; by rewrite Hth|].
  split; [|by repeat split].
  induction k as [|k IH]; [done|].
  rewrite worker_run_S. unfold step. destruct (aborted q); [done|].
  unfold worker_step. simpl. rewrite Hw. exact IH.
Qed.

Lemma destroyed_unstarted_unit_runs_nothing_witness :
  let evs := [ESend (Callable 1 0); ESend (Callable 2 0);
              ESendDelayed (Callable 3 0) 5; Tick 9] in
  let p := run evs (boot 1) in
  let q := Thread_dtor_signal p in
  no_start evs = true /\
  messageQueue (obj q) = [CallableMessage (Callable 1 0);
                          CallableMessage (Callable 2 0)] /\
  join q = Some q /\
  worker_run 20 q = q /\
  messageQueue (obj q) = messageQueue (obj p) /\
  delayedQueue (obj q) = delayedQueue (obj p) /\
  queue_calls q = [].
Proof.
  split; [reflexivity|]. split; [reflexivity|].
  apply (destroyed_unstarted_unit_runs_nothing 1
           [ESend (Callable 1 0); ESend (Callable 2 0);
            ESendDelayed (Callable 3 0) 5; Tick 9] 20).
  reflexivity.
Defined.

(** ** Delivery of delayed messages *)

Lemma first_pass p :
  wf p -> aborted p = false -> isRunning (obj p) = true ->
  worker p = LoopHead ->
  let q := worker_run 3 p in
  pending q = messageQueue (obj p) ++
              (snd <$> due (now p) (delayedQueue (obj p))) /\
  delayedQueue (obj q) = not_due (now p) (delayedQueue (obj p)) /\
  calls q = calls p /\ promises q = promises p.
Proof.
  intros Hwf Hab Hrun Hw q.
  assert (E1 : step EWorker p = set_worker ReadClock p).
  { rewrite step_worker_live by done. unfold worker_step, getIsRunning.
    by rewrite Hw, Hrun. }
  assert (E2 : step EWorker (set_worker ReadClock p)
               = set_worker (Lock (now p)) p).
  { rewrite step_worker_live by done. reflexivity. }
  unfold q. change (worker_run 3 p)
    with (step EWorker (step EWorker (step EWorker p))).
  rewrite E1, E2, step_worker_live by done.
  unfold worker_step. simpl.
  destruct (messageQueue (obj p)) as [|m0 mq] eqn:Hmq;
    destruct (delayedQueue (obj p)) as [|e0 dq] eqn:Hdq; simpl.
  - done.
  - unfold afterWait. simpl. rewrite Hdq, Hmq.
    rewrite (promote_sorted (now p) (e0 :: dq) []);
      [|rewrite <- Hdq; apply Hwf].
    simpl. unfold takeNext, pending. simpl.
    case_bool_decide as Hd; simpl.
    + by destruct (snd <$> due (now p) (e0 :: dq)).
    + rewrite Hd. simpl.
      by destruct (lower_bound (now p) (not_due (now p) (e0 :: dq))).
  - unfold afterWait. simpl. rewrite Hdq. unfold takeNext, pending. simpl.
    rewrite Hmq. simpl. by rewrite app_nil_r.
  - unfold afterWait. simpl. rewrite Hdq, Hmq.
    rewrite (promote_sorted (now p) (e0 :: dq) (m0 :: mq));
      [|rewrite <- Hdq; apply Hwf].
    simpl. unfold takeNext, pending. simpl.
    case_bool_decide as Hd; simpl; [done|].
    rewrite Hd. simpl.
    destruct (lower_bound (now p) (not_due (now p) (e0 :: dq))); simpl;
      by rewrite ?app_nil_r.
Qed.

(** X19.  The loop is running and at the head of an iteration.  Left
    alone, it calls what is in the message queue, in order, and then every
    delayed message whose deadline is before the clock, in deadline order;
    this takes at most three steps plus six for each message called, and
    the delayed queue is left with exactly the entries not yet due. *)
Theorem due_delayed_messages_are_delivered p :
  reachable p -> aborted p = false -> isRunning (obj p) = true ->
  worker p = LoopHead ->
  let ms := messageQueue (obj p) ++ (snd <$> due (now p) (delayedQueue (obj p))) in
  exists k,
    k <= 3 + 6 * length ms /\
    calls (worker_run k p) =
      calls p ++ ((fun m => CallRecord m (now p) false) <$> ms) /\
    delayedQueue (obj (worker_run k p)) = not_due (now p) (delayedQueue (obj p)).
Proof.
  intros Hr Hab Hrun Hw ms. pose proof (reachable_wf p Hr) as Hwf.
  destruct (first_pass p Hwf Hab Hrun Hw) as (P1 & P2 & P3 & P4).
  fold ms in P1. set (q := worker_run 3 p) in *.
  assert (Hwfq : wf q) by by apply worker_run_wf.
  destruct (worker_run_frame 3 p) as (F1 & _ & _ & F4 & _ & _ & F7).
  fold q in F1, F4, F7.
  destruct (progress_prefix ms q [] Hwfq) as (k & extra & K1 & K2 & _ & _);
    [congruence|congruence|by rewrite app_nil_r|].
  exists (3 + k). split; [lia|].
  rewrite worker_run_add. fold q. rewrite K2, P3, F4. split; [done|].
  destruct (worker_run_moves k q Hwfq) as (moved & M1 & _ & M3).
  destruct moved as [|e moved]; [simpl in M1; by rewrite <- M1|]. exfalso.
  apply Forall_cons in M3 as [M3 _]. rewrite F4 in M3.
  assert (Hin : e ∈ not_due (now p) (delayedQueue (obj p)))
    by (rewrite <- P2, M1; by left).
  unfold not_due in Hin. apply list_elem_of_filter in Hin as [Hin _]. lia.
Qed.

Lemma due_delayed_messages_are_delivered_witness :
  let p := run [EStart 7; ESendDelayed (Callable 2 0) 5;
                ESendDelayed (Callable 3 0) 30; ESend (Callable 1 0); Tick 10]
               (boot 1) in
  (reachable p /\ aborted p = false /\ isRunning (obj p) = true /\
   worker p = LoopHead) /\
  exists k,
    k <= 3 + 6 * 2 /\
    calls (worker_run k p) =
      [CallRecord (CallableMessage (Callable 1 0)) 10 false;
       CallRecord (CallableMessage (Callable 2 0)) 10 false] /\
    delayedQueue (obj (worker_run k p)) = [(30%Z, CallableMessage (Callable 3 0))].
Proof.
  assert (Hr : reachable
            (run [EStart 7; ESendDelayed (Callable 2 0) 5;
                  ESendDelayed (Callable 3 0) 30; ESend (Callable 1 0); Tick 10]
                 (boot 1)))
    by (exists 1; eexists; reflexivity).
  split; [by repeat split|].
  exact (due_delayed_messages_are_delivered _ Hr eq_refl eq_refl eq_refl).
Defined.
